(** * V-Nashak license server: the license / credential state machine

    A shallow embedding of [server.js]: the allow-list helpers
    ([isUserIdValid], [isUserIdAlreadyUsed], [markUserIdAsUsed],
    [validateUserIdDirectAndUnused]), the key generator
    ([generateUniqueLicenseKey]) and the two handlers [/send-license] and
    [/activate-license].

    The handlers are written in a small state-and-exception monad over the
    server's mutable state (the two in-memory id sets, the used-ids file and
    the [License] collection).  Everything the handlers cannot decide
    themselves -- the values of [Math.random()], whether a database call
    rejects, whether mail is configured and goes through, the clock -- is an
    input, gathered in [Env].  A field of a request body is absent or a
    string.

    In the monad a request is served to completion before the next one
    starts ([steps]).  The handlers are [async] functions, so between two
    [await]s of one handler others may run: a second model ([Thread],
    [advance], [isteps]) cuts each handler at its [await]s and lets the
    pieces of different requests follow each other in any order.  A handler
    that nothing interrupts is the handler of the monad
    ([sendLicense_alone], [activateLicense_alone]), and requests served one
    after the other are one of the interleavings ([steps_isteps]). *)

From Stdlib Require Import ZArith NArith Ascii Lia.
From Stdlib Require String.
From stdpp Require Import base option list gmap strings.

(** ** JavaScript builtins used by the key generator *)

Module Js.

(** The digit alphabet of [Number.prototype.toString(36)]:
    [0-9] then [a-z]. *)
Definition digitChar (d : N) : ascii :=
  if (d <? 10)%N then ascii_of_N (48 + d) else ascii_of_N (87 + d).

(** A value of [Math.random()], a double in [[0, 1)], is represented by the
    base-36 digits after the point that [toString(36)] prints for it: none
    for [0], at least one otherwise. *)
Definition Draw : Type := list N.

(** The digits are digits: each is below 36. *)
Definition wellFormed (d : Draw) : Prop := Forall (λ x, (x < 36)%N) d.

(** The exact base-36 expansion of the fraction [num / den]; it is what
    [toString(36)] prints when the expansion is finite and short, as for
    [1/2]. *)
Fixpoint fracDigits36 (fuel : nat) (num den : N) : Draw :=
  match fuel with
  | O => []
  | S fuel' =>
      if (num =? 0)%N then []
      else ((36 * num) / den)%N :: fracDigits36 fuel' ((36 * num) mod den)%N den
  end.

(** [x.toString(36)] for [x] in [[0, 1)]. *)
Definition toString36 (d : Draw) : string :=
  match d with
  | [] => "0"
  | _ => "0." +:+ String.string_of_list_ascii (map digitChar d)
  end.

(** [s.substring(start, end)] for [start <= end]: the characters at indices
    [start .. end - 1], as far as the string reaches. *)
Definition substring (s : string) (start finish : nat) : string :=
  String.substring start (finish - start) s.

Definition toUpperAscii (c : ascii) : ascii :=
  let n := N_of_ascii c in
  if ((97 <=? n) && (n <=? 122))%N then ascii_of_N (n - 32) else c.

(** [s.toUpperCase()], on the ASCII range. *)
Fixpoint toUpperCase (s : string) : string :=
  match s with
  | EmptyString => EmptyString
  | String c s' => String (toUpperAscii c) (toUpperCase s')
  end.

(** [[A-Z0-9]] *)
Definition isUpperAlnum (c : ascii) : bool :=
  let n := N_of_ascii c in
  (((48 <=? n) && (n <=? 57)) || ((65 <=? n) && (n <=? 90)))%N.

Definition isHyphen (c : ascii) : bool := (N_of_ascii c =? 45)%N.

(** The regular expression [^[A-Z0-9]{4}-[A-Z0-9]{4}-[A-Z0-9]{4}$]. *)
Definition matchesKeyFormat (s : string) : bool :=
  match String.list_ascii_of_string s with
  | [a1; a2; a3; a4; h1; b1; b2; b3; b4; h2; c1; c2; c3; c4] =>
      forallb isUpperAlnum [a1; a2; a3; a4; b1; b2; b3; b4; c1; c2; c3; c4]
      && isHyphen h1 && isHyphen h2
  | _ => false
  end.

End Js.

(** ** The key generator's pure part *)

(** [segment = () => Math.random().toString(36).substring(2, 6).toUpperCase()] *)
Definition segment (d : Js.Draw) : string :=
  Js.toUpperCase (Js.substring (Js.toString36 d) 2 6).

(** [`${segment()}-${segment()}-${segment()}`], the draws taken left to
    right. *)
Definition candidateKey (d1 d2 d3 : Js.Draw) : string :=
  segment d1 +:+ "-" +:+ segment d2 +:+ "-" +:+ segment d3.

(** The candidates the generator's loop builds from a sequence of draws,
    three draws each. *)
Fixpoint candidates (draws : list Js.Draw) : list string :=
  match draws with
  | d1 :: d2 :: d3 :: rest => candidateKey d1 d2 d3 :: candidates rest
  | _ => []
  end.

(** ** Data *)

(** A document of the [License] collection.  [models/License.js] is not part
    of the sources; the fields are those the handlers read and write.
    [status] is a string as in the handlers (["ASSIGNED"], ["ACTIVATED"]);
    [machineId] and [activatedAt] are unset until activation. *)
Record License := mkLicense {
  email : string;
  userId : string;
  name : string;
  phoneNumber : string;
  licenseKey : string;
  status : string;
  machineId : option string;
  activatedAt : option Z;
}.

(** The server's mutable state: the two module-level sets, the contents of
    [used-user-ids.json], and the [License] collection in insertion order.
    A document is identified by its position in the collection; documents
    are never deleted. *)
Record Server := mkServer {
  validUserIds : gset string;
  usedUserIds : gset string;
  usedIdsFile : gset string;
  licenses : list License;
}.

(** The JSON body sent back, with the HTTP status code. *)
Record Response := mkResponse {
  httpCode : nat;
  resStatus : string;
  resMessage : string;
  resLicenseKey : option string;
}.

(** [req.body] of [/send-license]: each field absent or a string. *)
Record SendLicenseBody := mkSendLicenseBody {
  sl_email : option string;
  sl_userId : option string;
  sl_name : option string;
  sl_phoneNumber : option string;
}.

(** [req.body] of [/activate-license]: each field absent or a string. *)
Record ActivateBody := mkActivateBody {
  al_email : option string;
  al_licenseKey : option string;
  al_machineId : option string;
}.

(** How a [save()] ends. *)
Inductive SaveOutcome := SaveOk | SaveDuplicateKey | SaveError.

(** What one request sees of the outside world. *)
Record Env := mkEnv {
  (** successive values of [Math.random()] *)
  random : list Js.Draw;
  (** whether the [n]-th [License.findOne] of the request rejects *)
  findThrows : nat → bool;
  (** how the request's [save()] ends *)
  saveOutcome : SaveOutcome;
  (** [process.env.EMAIL_USER && process.env.EMAIL_PASS] *)
  emailConfigured : bool;
  (** whether [transporter.sendMail] rejects *)
  sendMailThrows : bool;
  (** whether [fs.writeFileSync] throws *)
  writeFileThrows : bool;
  (** [new Date()] *)
  now : Z;
}.

(** The store and delivery operations a request performs, in order. *)
Inductive Op :=
| OpFindOne (key : string)
| OpInsert (doc : License)
| OpUpdate (i : nat) (doc : License)
| OpSendMail (to key : string)
| OpWriteUsedIds (ids : gset string).


Definition isWrite (o : Op) : bool :=
  match o with
  | OpInsert _ | OpUpdate _ _ | OpWriteUsedIds _ => true
  | _ => false
  end.

(** ** The monad of the handlers *)

(** A computation ends with a value, with a thrown exception, or does not
    end within the draws it was given ([OutOfDraws]); the first two carry
    the state reached and the operations performed. *)
Inductive Res (A : Type) :=
| Done (a : A) (s : Server) (log : list Op)
| Thrown (s : Server) (log : list Op)
| OutOfDraws.
Arguments Done {A} a s log.
Arguments Thrown {A} s log.
Arguments OutOfDraws {A}.

Definition M (A : Type) : Type := Server → Res A.

Definition ret {A} (a : A) : M A := λ s, Done a s [].

Definition bind {A B} (m : M A) (f : A → M B) : M B := λ s,
  match m s with
  | Done a s1 l1 =>
      match f a s1 with
      | Done b s2 l2 => Done b s2 (l1 ++ l2)
      | Thrown s2 l2 => Thrown s2 (l1 ++ l2)
      | OutOfDraws => OutOfDraws
      end
  | Thrown s1 l1 => Thrown s1 l1
  | OutOfDraws => OutOfDraws
  end.

(** [try { m } catch (e) { h }] *)
Definition tryCatch {A} (m : M A) (h : M A) : M A := λ s,
  match m s with
  | Thrown s1 l1 =>
      match h s1 with
      | Done b s2 l2 => Done b s2 (l1 ++ l2)
      | Thrown s2 l2 => Thrown s2 (l1 ++ l2)
      | OutOfDraws => OutOfDraws
      end
  | r => r
  end.

Notation "'let*' x ':=' m 'in' k" := (bind m (λ x, k))
  (at level 10, x name, m at level 100, k at level 200).

(** ** Store primitives *)

(** [License.findOne({ licenseKey: key })]: the first document with that
    key and its position, or nothing. *)
Definition lookupKey (key : string) (ls : list License) : option (nat * License) :=
  list_find (λ l, licenseKey l = key) ls.

Definition findOne (throws : bool) (key : string) : M (option (nat * License)) :=
  λ s, if throws then Thrown s [OpFindOne key]
       else Done (lookupKey key (licenses s)) s [OpFindOne key].

Definition setLicenses (s : Server) (ls : list License) : Server :=
  {| validUserIds := validUserIds s; usedUserIds := usedUserIds s;
     usedIdsFile := usedIdsFile s; licenses := ls |}.

(** [newLicense.save()] on a new document. *)
Definition saveNew (o : SaveOutcome) (doc : License) : M unit := λ s,
  match o with
  | SaveOk => Done () (setLicenses s (licenses s ++ [doc])) [OpInsert doc]
  | _ => Thrown s [OpInsert doc]
  end.

(** [storedLicense.save()] on the document found at position [i]. *)
Definition saveAt (o : SaveOutcome) (i : nat) (doc : License) : M unit := λ s,
  match o with
  | SaveOk => Done () (setLicenses s (<[i := doc]> (licenses s))) [OpUpdate i doc]
  | _ => Thrown s [OpUpdate i doc]
  end.

(** [transporter.sendMail(mailOptions)] *)
Definition sendMail (throws : bool) (to key : string) : M unit := λ s,
  if throws then Thrown s [OpSendMail to key] else Done () s [OpSendMail to key].

(** ** User-id validation ([server.js], lines 60-111) *)

Definition isUserIdValid (s : Server) (id : string) : bool :=
  bool_decide (id ∈ validUserIds s).

Definition isUserIdAlreadyUsed (s : Server) (id : string) : bool :=
  bool_decide (id ∈ usedUserIds s).

(** [usedUserIds.add(userId)] *)
Definition addUsed (s : Server) (id : string) : Server :=
  {| validUserIds := validUserIds s; usedUserIds := {[ id ]} ∪ usedUserIds s;
     usedIdsFile := usedIdsFile s; licenses := licenses s |}.

(** [fs.writeFileSync(USED_IDS_FILE, JSON.stringify(Array.from(usedUserIds)))] *)
Definition writeUsedIdsFile (s : Server) : Server :=
  {| validUserIds := validUserIds s; usedUserIds := usedUserIds s;
     usedIdsFile := usedUserIds s; licenses := licenses s |}.

(** The id is added to the set, then the whole set is written to the file. *)
Definition markUserIdAsUsed (throws : bool) (id : string) : M unit := λ s,
  let s1 := addUsed s id in
  if throws then Thrown s1 [OpWriteUsedIds (usedUserIds s1)]
  else Done () (writeUsedIdsFile s1) [OpWriteUsedIds (usedUserIds s1)].

Record Validation := mkValidation {
  valid : bool;
  validationMessage : option string;
}.

Definition msgNotValid (id : string) : string :=
  "User ID '" +:+ id +:+ "' is not a valid ID.".

Definition msgAlreadyUsed (id : string) : string :=
  "User ID '" +:+ id +:+ "' has already been used.".

Definition validateUserIdDirectAndUnused (s : Server) (id : string) : Validation :=
  if negb (isUserIdValid s id) then
    {| valid := false; validationMessage := Some (msgNotValid id) |}
  else if isUserIdAlreadyUsed s id then
    {| valid := false; validationMessage := Some (msgAlreadyUsed id) |}
  else {| valid := true; validationMessage := None |}.

(** ** The key generator ([server.js], lines 131-141) *)

(** The [do ... while (keyExists)] loop: each round takes three draws and
    one [findOne]; [n] counts the [findOne] calls made so far. *)
Fixpoint generateUniqueLicenseKey (throws : nat → bool) (n : nat)
    (draws : list Js.Draw) : M string :=
  match draws with
  | d1 :: d2 :: d3 :: rest =>
      let key := candidateKey d1 d2 d3 in
      let* existingLicense := findOne (throws n) key in
      if bool_decide (is_Some existingLicense)
      then generateUniqueLicenseKey throws (S n) rest
      else ret key
  | _ => λ _, OutOfDraws
  end.

(** ** The handlers *)

(** JavaScript truthiness of a body field that is absent or a string. *)
Definition truthy (v : option string) : bool :=
  match v with
  | Some s => negb (bool_decide (s = ""))
  | None => false
  end.

Definition jsonError (code : nat) (msg : string) : Response :=
  {| httpCode := code; resStatus := "ERROR"; resMessage := msg;
     resLicenseKey := None |}.

Definition resAllFieldsRequired : Response :=
  jsonError 400 "All fields are required.".
Definition resInternalError : Response :=
  jsonError 500 "An internal server error occurred.".
Definition resIssuedNoEmail (key : string) : Response :=
  {| httpCode := 200; resStatus := "SUCCESS";
     resMessage := "User ID validated, but email is not configured on the server.";
     resLicenseKey := Some key |}.
Definition resIssuedEmailed : Response :=
  {| httpCode := 200; resStatus := "SUCCESS";
     resMessage := "User ID validated and license key sent to your email!";
     resLicenseKey := None |}.

Definition newLicense (e u n p key : string) : License :=
  {| email := e; userId := u; name := n; phoneNumber := p;
     licenseKey := key; status := "ASSIGNED";
     machineId := None; activatedAt := None |}.

(** The [try] block of [/send-license] (lines 188-236). *)
Definition issueLicense (env : Env) (e u n p : string) : M Response :=
  let* newLicenseKey :=
    generateUniqueLicenseKey (findThrows env) 0 (random env) in
  let* _ := saveNew (saveOutcome env) (newLicense e u n p newLicenseKey) in
  if negb (emailConfigured env) then
    let* _ := markUserIdAsUsed (writeFileThrows env) u in
    ret (resIssuedNoEmail newLicenseKey)
  else
    let* _ := sendMail (sendMailThrows env) e newLicenseKey in
    let* _ := markUserIdAsUsed (writeFileThrows env) u in
    ret resIssuedEmailed.

(** [app.post("/send-license", ...)] (lines 172-241). *)
Definition sendLicense (env : Env) (body : SendLicenseBody) : M Response :=
  if negb (truthy (sl_email body)) || negb (truthy (sl_userId body))
     || negb (truthy (sl_name body)) || negb (truthy (sl_phoneNumber body))
  then ret resAllFieldsRequired
  else
    match sl_email body, sl_userId body, sl_name body, sl_phoneNumber body with
    | Some e, Some u, Some n, Some p =>
        λ s,
          let validation := validateUserIdDirectAndUnused s u in
          if negb (valid validation) then
            ret (jsonError 400 (default "" (validationMessage validation))) s
          else
            tryCatch (issueLicense env e u n p) (ret resInternalError) s
    | _, _, _, _ => ret resAllFieldsRequired
    end.

Definition resActivateFieldsRequired : Response :=
  jsonError 400 "Email, licenseKey, and machineId are required.".
Definition resInvalidKey : Response :=
  jsonError 200 "Invalid license key.".
Definition resEmailMismatch : Response :=
  jsonError 200 "This license key is not valid for this email address.".
Definition resMachineMismatch : Response :=
  jsonError 200 "This license key is already activated on a different machine.".
Definition resAlreadyActivated : Response :=
  {| httpCode := 200; resStatus := "ALREADY_ACTIVATED";
     resMessage := "This license is already active on this device.";
     resLicenseKey := None |}.
Definition resActivated : Response :=
  {| httpCode := 200; resStatus := "VALID";
     resMessage := "License activated successfully.";
     resLicenseKey := None |}.
Definition resDatabaseError : Response :=
  jsonError 500 "A database error occurred during activation.".

(** Lines 283-285: the three assignments to the document found. *)
Definition activated (l : License) (m : string) (t : Z) : License :=
  {| email := email l; userId := userId l; name := name l;
     phoneNumber := phoneNumber l; licenseKey := licenseKey l;
     status := "ACTIVATED"; machineId := Some m; activatedAt := Some t |}.

(** The [try] block of [/activate-license] (lines 257-290). *)
Definition activateStored (env : Env) (e k m : string) : M Response :=
  let* storedLicense := findOne (findThrows env 0) k in
  match storedLicense with
  | None => ret resInvalidKey
  | Some (i, l) =>
      if negb (bool_decide (email l = e)) then ret resEmailMismatch
      else if bool_decide (status l = "ACTIVATED") then
        if bool_decide (machineId l = Some m) then ret resAlreadyActivated
        else ret resMachineMismatch
      else
        let* _ := saveAt (saveOutcome env) i (activated l m (now env)) in
        ret resActivated
  end.

(** [app.post("/activate-license", ...)] (lines 244-295). *)
Definition activateLicense (env : Env) (body : ActivateBody) : M Response :=
  if negb (truthy (al_email body)) || negb (truthy (al_licenseKey body))
     || negb (truthy (al_machineId body))
  then ret resActivateFieldsRequired
  else
    match al_email body, al_licenseKey body, al_machineId body with
    | Some e, Some k, Some m =>
        tryCatch (activateStored env e k m) (ret resDatabaseError)
    | _, _, _ => ret resActivateFieldsRequired
    end.

(** ** Runs of the server *)

Inductive Request :=
| SendLicense (body : SendLicenseBody)
| ActivateLicense (body : ActivateBody).

Definition handle (env : Env) (r : Request) : M Response :=
  match r with
  | SendLicense body => sendLicense env body
  | ActivateLicense body => activateLicense env body
  end.

(** One request served to completion. *)
Definition step (s s' : Server) : Prop :=
  ∃ env r res log, handle env r s = Done res s' log.

(** Any number of requests served one after the other. *)
Inductive steps : Server → Server → Prop :=
| steps_refl s : steps s s
| steps_cons s1 s2 s3 : step s1 s2 → steps s2 s3 → steps s1 s3.

(** ** Concrete data for the examples *)

(** [Math.random()] returning [0.5], which prints as ["0.i"]. *)
Definition half : Js.Draw := Js.fracDigits36 53 1 2.

(** Three draws whose strings start ["0.abcd"], ["0.efgh"], ["0.ijkl"]. *)
Definition drawsABCD : list Js.Draw :=
  [[10; 11; 12; 13; 7]; [14; 15; 16; 17; 30; 2]; [18; 19; 20; 21]]%N.

(** Three more, for ["0.mnop"], ["0.qrst"], ["0.uvwx"]. *)
Definition drawsMNOP : list Js.Draw :=
  [[22; 23; 24; 25; 1]; [26; 27; 28; 29]; [30; 31; 32; 33; 0; 5]]%N.

(** An environment in which nothing fails and mail is configured. *)
Definition quietEnv (draws : list Js.Draw) : Env :=
  {| random := draws; findThrows := λ _, false; saveOutcome := SaveOk;
     emailConfigured := true; sendMailThrows := false;
     writeFileThrows := false; now := 1700000000000 |}.



Definition requestU123 : SendLicenseBody :=
  mkSendLicenseBody (Some "a@b.com") (Some "U123") (Some "Asha") (Some "5550100").

Definition licenseU123 : License :=
  newLicense "a@b.com" "U123" "Asha" "5550100" "ABCD-EFGH-IJKL".

(** [U123] is on the allow-list and nothing has been issued yet. *)
Definition freshServer : Server :=
  {| validUserIds := {[ "U123" ]}; usedUserIds := ∅; usedIdsFile := ∅;
     licenses := [] |}.

(** [U123] has got its license. *)
Definition issuedServer : Server :=
  {| validUserIds := {[ "U123" ]}; usedUserIds := {[ "U123" ]};
     usedIdsFile := {[ "U123" ]}; licenses := [licenseU123] |}.

(** That license has been activated on [mach-1]. *)
Definition activatedServer : Server :=
  setLicenses issuedServer [activated licenseU123 "mach-1" 1700000000000].

Definition activateU123 (m : string) : ActivateBody :=
  mkActivateBody (Some "a@b.com") (Some "ABCD-EFGH-IJKL") (Some m).

(** ** The remaining endpoint and the start-up code *)

(** [validateUserIdWithCppBackend] (lines 120-126): the promise resolves to
    the [valid] field of the direct validation. *)
Definition validateUserIdWithCppBackend (s : Server) (id : string) : bool :=
  valid (validateUserIdDirectAndUnused s id).

(** The JSON body of the answers of [/test-userid], with the HTTP code. *)
Record TestUserIdResponse := mkTestUserIdResponse {
  tu_httpCode : nat;
  tu_status : string;
  tu_userId : option string;
  tu_isValidAndUnused : option bool;
  tu_message : string;
}.

Definition resUserIdRequired : TestUserIdResponse :=
  {| tu_httpCode := 400; tu_status := "ERROR"; tu_userId := None;
     tu_isValidAndUnused := None; tu_message := "userId is required" |}.

(** [app.post("/test-userid", ...)] (lines 156-169), for a [userId] that is
    absent or a string.  (The handler has no [try]: for a [userId] that is
    an object whose [toString] cannot be called, the template literal of
    line 105 throws; such bodies are outside this definition.) *)
Definition testUserId (userId : option string) : M TestUserIdResponse :=
  if negb (truthy userId) then ret resUserIdRequired
  else
    match userId with
    | Some u =>
        λ s,
          let validation := validateUserIdDirectAndUnused s u in
          ret {| tu_httpCode := 200; tu_status := "SUCCESS";
                 tu_userId := Some u;
                 tu_isValidAndUnused := Some (valid validation);
                 tu_message :=
                   if valid validation then "User ID is valid and unused."
                   else default "" (validationMessage validation) |} s
    | None => ret resUserIdRequired
    end.

(** A value that [JSON.parse] returns.  A number is kept as its literal:
    nothing here computes with it. *)
Unset Elimination Schemes.
Inductive Json :=
| JNull
| JBool (b : bool)
| JNum (literal : string)
| JStr (s : string)
| JArr (items : list Json)
| JObj (members : list (string * Json)).
Set Elimination Schemes.

(** A byte from 0x80 to 0xBF continues a character of UTF-8 text. *)
Definition isContinuation (c : ascii) : bool :=
  (128 <=? N_of_ascii c)%N && (N_of_ascii c <? 192)%N.

(** The one-character strings that iterating a string yields, a character
    being a code point: in the UTF-8 text that stands for the string, a
    byte and the continuation bytes after it. *)
Fixpoint characters (s : string) : list string :=
  match s with
  | EmptyString => []
  | String c rest =>
      let groups := characters rest in
      match rest, groups with
      | String c' _, g :: gs =>
          if isContinuation c' then String c g :: gs
          else String c EmptyString :: groups
      | _, _ => String c EmptyString :: groups
      end
  end.

(** What [new Set(v)] is built from: nothing for [null], the characters of
    a string, the items of an array; a boolean, a number or an object is
    not iterable and the constructor throws ([None]). *)
Definition iterate (v : Json) : option (list Json) :=
  match v with
  | JNull => Some []
  | JStr s => Some (JStr <$> characters s)
  | JArr items => Some items
  | JBool _ | JNum _ | JObj _ => None
  end.

(** The strings among some values.  The handlers ask a set only for
    strings ([has(userId)] with [userId] a string), and a string is found
    only if it is itself an element: the sets of the server are modelled
    by the strings they hold. *)
Definition stringsOf (items : list Json) : list string :=
  omap (λ v, match v with JStr s => Some s | _ => None end) items.

(** What the start-up code finds at the path of one of the two id files:
    no file, a file holding the empty string, a file on which [JSON.parse]
    throws, or a file that parses to a value. *)
Inductive IdsFile :=
| FileMissing
| FileEmpty
| FileCorrupt
| FileJson (v : Json).

(** A file holding a JSON array of these strings. *)
Definition FileIds (ids : list string) : IdsFile := FileJson (JArr (JStr <$> ids)).

(** The first part of the [app.listen] callback (lines 376-387):
    [usedUserIds] is replaced when the file exists and is not empty, by
    [new Set(JSON.parse(data))] or, when that throws, by a new empty set. *)
Definition loadUsedUserIds (f : IdsFile) (current : gset string) : gset string :=
  match f with
  | FileMissing | FileEmpty => current
  | FileCorrupt => ∅
  | FileJson v =>
      match iterate v with
      | Some items => list_to_set (stringsOf items)
      | None => ∅
      end
  end.

(** [loadValidUserIds] (lines 68-82): the new value of [validUserIds] and
    the file afterwards.  A missing file is created holding [[]]; every
    exception -- of [JSON.parse], of [new Set], of the write -- is caught
    and leaves the set as it was. *)
Definition loadValidUserIds (writeThrows : bool) (f : IdsFile)
    (current : gset string) : gset string * IdsFile :=
  match f with
  | FileJson v =>
      match iterate v with
      | Some items => (list_to_set (stringsOf items), f)
      | None => (current, f)
      end
  | FileMissing => (current, if writeThrows then FileMissing else FileIds [])
  | FileEmpty | FileCorrupt => (current, f)
  end.

(** The state when the server starts to listen: both sets start as
    [new Set()] (lines 61, 64) and are loaded from the files; the
    collection is what the database holds.  [usedIdsFile] is what can be
    read back from the used-ids file. *)
Definition boot (writeThrows : bool) (usedFile validFile : IdsFile)
    (db : list License) : Server :=
  {| validUserIds := (loadValidUserIds writeThrows validFile ∅).1;
     usedUserIds := loadUsedUserIds usedFile ∅;
     usedIdsFile := loadUsedUserIds usedFile ∅;
     licenses := db |}.

(** The used-ids file as [markUserIdAsUsed] last wrote it. *)
Definition usedIdsFileOf (s : Server) : IdsFile :=
  FileIds (elements (usedIdsFile s)).

(** The process is stopped and started again: memory is lost, the used-ids
    file and the database are not. *)
Definition restart (writeThrows : bool) (validFile : IdsFile) (s : Server) : Server :=
  boot writeThrows (usedIdsFileOf s) validFile (licenses s).

(** The strings that loading a file into an empty set puts there. *)
Definition readableIds (f : IdsFile) : list string :=
  match f with
  | FileJson v =>
      match iterate v with
      | Some items => stringsOf items
      | None => []
      end
  | _ => []
  end.

(** ** Shapes of documents, for the invariants *)

(** A document as [/send-license] creates it or as [/activate-license]
    leaves it. *)
Definition wellFormedLicense (l : License) : Prop :=
  (status l = "ASSIGNED" ∧ machineId l = None ∧ activatedAt l = None)
  ∨ (status l = "ACTIVATED"
     ∧ (∃ m, machineId l = Some m ∧ m ≠ "") ∧ is_Some (activatedAt l)).

(** The fields taken from the request at issuance, with the key. *)
Definition snapshot (l : License) : string * string * string * string * string :=
  (email l, userId l, name l, phoneNumber l, licenseKey l).

(** ** Requests that overlap *)

(** The handlers are [async] functions: a handler runs without
    interruption up to its next [await], and while it waits for the awaited
    call other handlers run.  A [Thread] is a handler that has been started
    and waits at an [await]:
    - [IssueFind]: [/send-license], in the generator's loop, before the
      [findOne] for the candidate made of the next three draws ([k] lookups
      done so far);
    - [IssueSave]: [/send-license], before the database performs
      [newLicense.save()] (line 200);
    - [IssueSaved]: [/send-license], the save done, before the handler
      goes on from line 201;
    - [ActFind]: [/activate-license], before the database answers the
      [findOne] of line 258;
    - [ActSave]: [/activate-license], before the database performs
      [storedLicense.save()] (line 287) of the copy [doc], changed by
      lines 283-285, of the document found at position [i]. *)
Inductive Thread :=
| IssueFind (env : Env) (e u n p : string) (k : nat) (draws : list Js.Draw)
| IssueSave (env : Env) (e u n p key : string)
| IssueSaved (env : Env) (e u n p key : string)
| ActFind (env : Env) (e k m : string)
| ActSave (env : Env) (i : nat) (doc : License).

(** How a stretch of a handler ends: at the next [await], with the answer
    sent, or -- in the generator's loop -- with the draws used up. *)
Inductive Outcome :=
| Next (t : Thread)
| Answer (r : Response)
| NoDraws.

(** A request arrives: the handler runs up to its first [await].  For
    [/send-license] that is the check of the fields and of the user id
    (lines 174-186), both against the sets as they are now; for
    [/activate-license] the check of the fields (lines 246-253).  Nothing is
    written. *)
Definition start (env : Env) (req : Request) (s : Server) : Outcome :=
  match req with
  | SendLicense body =>
      if negb (truthy (sl_email body)) || negb (truthy (sl_userId body))
         || negb (truthy (sl_name body)) || negb (truthy (sl_phoneNumber body))
      then Answer resAllFieldsRequired
      else
        match sl_email body, sl_userId body, sl_name body, sl_phoneNumber body with
        | Some e, Some u, Some n, Some p =>
            let validation := validateUserIdDirectAndUnused s u in
            if negb (valid validation) then
              Answer (jsonError 400 (default "" (validationMessage validation)))
            else Next (IssueFind env e u n p 0 (random env))
        | _, _, _, _ => Answer resAllFieldsRequired
        end
  | ActivateLicense body =>
      if negb (truthy (al_email body)) || negb (truthy (al_licenseKey body))
         || negb (truthy (al_machineId body))
      then Answer resActivateFieldsRequired
      else
        match al_email body, al_licenseKey body, al_machineId body with
        | Some e, Some k, Some m => Next (ActFind env e k m)
        | _, _, _ => Answer resActivateFieldsRequired
        end
  end.

(** [markUserIdAsUsed(userId)] and the answer [r] after it, or the answer
    of the [catch] block when the write throws; [before] is what the
    stretch has done so far. *)
Definition markAndAnswer (env : Env) (u : string) (r : Response)
    (before : list Op) (s : Server) : Outcome * Server * list Op :=
  if writeFileThrows env then
    (Answer resInternalError, addUsed s u,
     before ++ [OpWriteUsedIds (usedUserIds (addUsed s u))])
  else
    (Answer r, writeUsedIdsFile (addUsed s u),
     before ++ [OpWriteUsedIds (usedUserIds (addUsed s u))]).

(** The awaited call of a thread is performed on the state as it is now,
    and the handler runs on to its next [await] or to its answer.  A stretch
    is put together with the awaited call before it when it touches neither
    the sets nor the collection (the decisions after a [findOne], the
    answer after the save of an activation, [sendMail]). *)
Definition advance (t : Thread) (s : Server) : Outcome * Server * list Op :=
  match t with
  | IssueFind env e u n p k draws =>
      match draws with
      | d1 :: d2 :: d3 :: rest =>
          let key := candidateKey d1 d2 d3 in
          if findThrows env k then (Answer resInternalError, s, [OpFindOne key])
          else if bool_decide (is_Some (lookupKey key (licenses s)))
          then (Next (IssueFind env e u n p (S k) rest), s, [OpFindOne key])
          else (Next (IssueSave env e u n p key), s, [OpFindOne key])
      | _ => (NoDraws, s, [])
      end
  | IssueSave env e u n p key =>
      match saveOutcome env with
      | SaveOk =>
          (Next (IssueSaved env e u n p key),
           setLicenses s (licenses s ++ [newLicense e u n p key]),
           [OpInsert (newLicense e u n p key)])
      | _ => (Answer resInternalError, s, [OpInsert (newLicense e u n p key)])
      end
  | IssueSaved env e u n p key =>
      if negb (emailConfigured env) then
        markAndAnswer env u (resIssuedNoEmail key) [] s
      else if sendMailThrows env then
        (Answer resInternalError, s, [OpSendMail e key])
      else markAndAnswer env u resIssuedEmailed [OpSendMail e key] s
  | ActFind env e k m =>
      if findThrows env 0 then (Answer resDatabaseError, s, [OpFindOne k])
      else
        match lookupKey k (licenses s) with
        | None => (Answer resInvalidKey, s, [OpFindOne k])
        | Some (i, l) =>
            if negb (bool_decide (email l = e)) then
              (Answer resEmailMismatch, s, [OpFindOne k])
            else if bool_decide (status l = "ACTIVATED") then
              if bool_decide (machineId l = Some m)
              then (Answer resAlreadyActivated, s, [OpFindOne k])
              else (Answer resMachineMismatch, s, [OpFindOne k])
            else (Next (ActSave env i (activated l m (now env))), s, [OpFindOne k])
        end
  | ActSave env i doc =>
      match saveOutcome env with
      | SaveOk =>
          (Answer resActivated, setLicenses s (<[i := doc]> (licenses s)),
           [OpUpdate i doc])
      | _ => (Answer resDatabaseError, s, [OpUpdate i doc])
      end
  end.

(** A handler that nothing interrupts: its stretches one after the other,
    at most [fuel] of them. *)
Fixpoint runAlone (fuel : nat) (o : Outcome) (s : Server) (log : list Op)
    : Res Response :=
  match o with
  | Answer r => Done r s log
  | NoDraws => OutOfDraws
  | Next t =>
      match fuel with
      | O => OutOfDraws
      | S fuel' =>
          match advance t s with
          | (o', s', log') => runAlone fuel' o' s' (log ++ log')
          end
      end
  end.

(** The server with the handlers that wait. *)
Definition Config : Type := Server * list Thread.

(** One thing happens: a request arrives, or one of the waiting handlers
    goes on, to its next [await] or to its answer. *)
Inductive istep : Config → Config → Prop :=
| istep_start env req s pool t :
    start env req s = Next t →
    istep (s, pool) (s, pool ++ [t])
| istep_next s pool1 t pool2 t' s' log :
    advance t s = (Next t', s', log) →
    istep (s, pool1 ++ t :: pool2) (s', pool1 ++ t' :: pool2)
| istep_answer s pool1 t pool2 r s' log :
    advance t s = (Answer r, s', log) →
    istep (s, pool1 ++ t :: pool2) (s', pool1 ++ pool2).

(** Any number of such steps: requests served in any interleaving. *)
Inductive isteps : Config → Config → Prop :=
| isteps_refl c : isteps c c
| isteps_cons c1 c2 c3 : istep c1 c2 → isteps c2 c3 → isteps c1 c3.

(** The thread is an activation about to save the document at position [i]. *)
Definition savesAt (i : nat) (t : Thread) : Prop :=
  ∃ env doc, t = ActSave env i doc.

(** What is true of every waiting handler that was started by [start] and
    moved by [advance]: an activation has a machine id that is not empty,
    and the copy it is about to save is the activation of the document now
    at that position. *)
Definition threadOk (s : Server) (t : Thread) : Prop :=
  match t with
  | ActFind _ _ _ m => m ≠ ""
  | ActSave _ i doc =>
      ∃ l m t, licenses s !! i = Some l ∧ m ≠ "" ∧ doc = activated l m t
  | _ => True
  end.

Definition consistent (c : Config) : Prop := Forall (threadOk c.1) c.2.

(** The collection of [s'] holds, at every position of the collection of
    [s], the same document or an activation of it. *)
Definition evolves (s s' : Server) : Prop :=
  ∀ i l, licenses s !! i = Some l →
    ∃ l', licenses s' !! i = Some l'
      ∧ (l' = l ∨ ∃ m t, m ≠ "" ∧ l' = activated l m t).

(** ** More data for the examples *)

(** A request that arrives half a second later. *)
Definition laterEnv : Env :=
  {| random := []; findThrows := λ _, false; saveOutcome := SaveOk;
     emailConfigured := true; sendMailThrows := false;
     writeFileThrows := false; now := 1700000000500 |}.

(** The license of [U123] after a second activation, from [mach-2], saved
    over the first. *)
Definition reboundServer : Server :=
  setLicenses issuedServer [activated licenseU123 "mach-2" 1700000000500].

(** * Properties *)

(** ** Body fields *)

Lemma truthy_Some (v : option string) :
  truthy v = true ↔ ∃ x, v = Some x ∧ x ≠ "".
Proof.
  destruct v as [x|]; simpl.
  - rewrite negb_true_iff, bool_decide_eq_false. naive_solver.
  - naive_solver.
Qed.

Lemma truthy_nonempty (x : string) : x ≠ "" → truthy (Some x) = true.
Proof. intros. apply truthy_Some. eauto. Qed.

(** ** The eligibility check *)

Lemma validate_valid_iff (s : Server) (id : string) :
  valid (validateUserIdDirectAndUnused s id) = true
  ↔ id ∈ validUserIds s ∧ id ∉ usedUserIds s.
Proof.
  unfold validateUserIdDirectAndUnused, isUserIdValid, isUserIdAlreadyUsed.
  destruct (decide (id ∈ validUserIds s)) as [Hv|Hv];
    destruct (decide (id ∈ usedUserIds s)) as [Hu|Hu];
    repeat first [rewrite (bool_decide_eq_true_2 _ Hv)
                 | rewrite (bool_decide_eq_false_2 _ Hv)
                 | rewrite (bool_decide_eq_true_2 _ Hu)
                 | rewrite (bool_decide_eq_false_2 _ Hu)];
    simpl; naive_solver.
Qed.


Lemma validate_used (s : Server) (id : string) :
  id ∈ validUserIds s → id ∈ usedUserIds s →
  validateUserIdDirectAndUnused s id
  = {| valid := false; validationMessage := Some (msgAlreadyUsed id) |}.
Proof.
  intros Hv Hu.
  unfold validateUserIdDirectAndUnused, isUserIdValid, isUserIdAlreadyUsed.
  by rewrite (bool_decide_eq_true_2 _ Hv), (bool_decide_eq_true_2 _ Hu).
Qed.

Lemma sendLicense_fields (env : Env) (e u n p : string) (s : Server) :
  e ≠ "" → u ≠ "" → n ≠ "" → p ≠ "" →
  sendLicense env (mkSendLicenseBody (Some e) (Some u) (Some n) (Some p)) s
  = if negb (valid (validateUserIdDirectAndUnused s u))
    then Done (jsonError 400
                 (default "" (validationMessage (validateUserIdDirectAndUnused s u))))
              s []
    else tryCatch (issueLicense env e u n p) (ret resInternalError) s.
Proof.
  intros He Hu Hn Hp. unfold sendLicense. simpl.
  rewrite !bool_decide_eq_false_2 by done. simpl. done.
Qed.




(** ** Requests with a missing field *)

(** C9.  A [/send-license] request in which one of [email], [userId],
    [name], [phoneNumber] is missing (or empty), and an [/activate-license]
    request in which one of [email], [licenseKey], [machineId] is, is
    answered with HTTP 400 before anything else happens: the state is the
    one before the call and no store operation was performed. *)
Theorem missing_field_rejected (env : Env) (s : Server) :
  (∀ body,
     truthy (sl_email body) = false ∨ truthy (sl_userId body) = false
     ∨ truthy (sl_name body) = false ∨ truthy (sl_phoneNumber body) = false →
     sendLicense env body s = Done resAllFieldsRequired s [])
  ∧ (∀ body,
     truthy (al_email body) = false ∨ truthy (al_licenseKey body) = false
     ∨ truthy (al_machineId body) = false →
     activateLicense env body s = Done resActivateFieldsRequired s []).
Proof.
  split; intros body H.
  - unfold sendLicense.
    destruct (truthy (sl_email body)), (truthy (sl_userId body)),
      (truthy (sl_name body)), (truthy (sl_phoneNumber body)); simpl;
      try done; naive_solver.
  - unfold activateLicense.
    destruct (truthy (al_email body)), (truthy (al_licenseKey body)),
      (truthy (al_machineId body)); simpl; try done; naive_solver.
Qed.

Lemma missing_field_witness :
  sendLicense (quietEnv drawsABCD)
    (mkSendLicenseBody (Some "a@b.com") (Some "U123") None (Some "5550100"))
    freshServer
  = Done resAllFieldsRequired freshServer []
  ∧ activateLicense (quietEnv [])
      (mkActivateBody (Some "a@b.com") (Some "ABCD-EFGH-IJKL") (Some ""))
      issuedServer
    = Done resActivateFieldsRequired issuedServer [].
Proof.
  split.
  - apply (proj1 (missing_field_rejected (quietEnv drawsABCD) freshServer)).
    right; right; left. reflexivity.
  - apply (proj2 (missing_field_rejected (quietEnv []) issuedServer)).
    right; right. reflexivity.
Defined.

(** ** Activation: one call *)

Lemma activateLicense_fields (env : Env) (e k m : string) (s : Server) :
  e ≠ "" → k ≠ "" → m ≠ "" →
  activateLicense env (mkActivateBody (Some e) (Some k) (Some m)) s
  = tryCatch (activateStored env e k m) (ret resDatabaseError) s.
Proof.
  intros He Hk Hm. unfold activateLicense. simpl.
  by rewrite !bool_decide_eq_false_2 by done.
Qed.

Lemma activate_not_found (env : Env) (e k m : string) (s : Server) :
  e ≠ "" → k ≠ "" → m ≠ "" → findThrows env 0 = false →
  lookupKey k (licenses s) = None →
  activateLicense env (mkActivateBody (Some e) (Some k) (Some m)) s
  = Done resInvalidKey s [OpFindOne k].
Proof.
  intros He Hk Hm Hf Hl. rewrite activateLicense_fields by done.
  unfold tryCatch, activateStored, bind, findOne. by rewrite Hf, Hl.
Qed.

Lemma activate_email_mismatch (env : Env) (e k m : string) (s : Server) i l :
  e ≠ "" → k ≠ "" → m ≠ "" → findThrows env 0 = false →
  lookupKey k (licenses s) = Some (i, l) → email l ≠ e →
  activateLicense env (mkActivateBody (Some e) (Some k) (Some m)) s
  = Done resEmailMismatch s [OpFindOne k].
Proof.
  intros He Hk Hm Hf Hl Hne. rewrite activateLicense_fields by done.
  unfold tryCatch, activateStored, bind, findOne. rewrite Hf, Hl.
  by rewrite (bool_decide_eq_false_2 _ Hne).
Qed.

Lemma activate_machine_mismatch (env : Env) (e k m : string) (s : Server) i l :
  e ≠ "" → k ≠ "" → m ≠ "" → findThrows env 0 = false →
  lookupKey k (licenses s) = Some (i, l) → email l = e →
  status l = "ACTIVATED" → machineId l ≠ Some m →
  activateLicense env (mkActivateBody (Some e) (Some k) (Some m)) s
  = Done resMachineMismatch s [OpFindOne k].
Proof.
  intros He Hk Hm Hf Hl Hem Hst Hne. rewrite activateLicense_fields by done.
  unfold tryCatch, activateStored, bind, findOne. rewrite Hf, Hl.
  rewrite (bool_decide_eq_true_2 _ Hem), (bool_decide_eq_true_2 _ Hst).
  by rewrite (bool_decide_eq_false_2 _ Hne).
Qed.


Lemma activate_fresh (env : Env) (e k m : string) (s : Server) i l :
  e ≠ "" → k ≠ "" → m ≠ "" → findThrows env 0 = false →
  saveOutcome env = SaveOk →
  lookupKey k (licenses s) = Some (i, l) → email l = e →
  status l ≠ "ACTIVATED" →
  activateLicense env (mkActivateBody (Some e) (Some k) (Some m)) s
  = Done resActivated
      (setLicenses s (<[i := activated l m (now env)]> (licenses s)))
      [OpFindOne k; OpUpdate i (activated l m (now env))].
Proof.
  intros He Hk Hm Hf Hs Hl Hem Hst. rewrite activateLicense_fields by done.
  unfold tryCatch, activateStored, bind, findOne, saveAt. rewrite Hf, Hl.
  rewrite (bool_decide_eq_true_2 _ Hem), (bool_decide_eq_false_2 _ Hst).
  simpl. by rewrite Hs.
Qed.

(** ** What one request does to the collection and to the id sets *)

(** Every way [/activate-license] can end: without a change of state and
    with an answer other than VALID, or with the activation of the document
    found. *)
Lemma activateLicense_inv (env : Env) (body : ActivateBody) (s s' : Server)
    (r : Response) (log : list Op) :
  activateLicense env body s = Done r s' log →
  (s' = s ∧ resStatus r ≠ "VALID"
   ∧ (httpCode r = 500 ∨ Forall (λ o, isWrite o = false) log))
  ∨ (∃ e k m i l,
       body = mkActivateBody (Some e) (Some k) (Some m)
       ∧ e ≠ "" ∧ k ≠ "" ∧ m ≠ ""
       ∧ lookupKey k (licenses s) = Some (i, l)
       ∧ email l = e ∧ status l ≠ "ACTIVATED"
       ∧ r = resActivated
       ∧ s' = setLicenses s (<[i := activated l m (now env)]> (licenses s))
       ∧ log = [OpFindOne k; OpUpdate i (activated l m (now env))]).
Proof.
  unfold activateLicense.
  destruct (truthy (al_email body)) eqn:Te; simpl;
    [|intros [= <- <- <-]; left; split_and!; [done..|by right]].
  destruct (truthy (al_licenseKey body)) eqn:Tk; simpl;
    [|intros [= <- <- <-]; left; split_and!; [done..|by right]].
  destruct (truthy (al_machineId body)) eqn:Tm; simpl;
    [|intros [= <- <- <-]; left; split_and!; [done..|by right]].
  apply truthy_Some in Te as (e & Ee & Ne), Tk as (k & Ek & Nk),
    Tm as (m & Em & Nm).
  destruct body as [be bk bm]; simpl in *; subst be bk bm.
  unfold tryCatch, activateStored, bind, findOne, saveAt, ret.
  destruct (findThrows env 0); simpl.
  { intros [= <- <- <-]. left. split_and!; [done..|by left]. }
  destruct (lookupKey k (licenses s)) as [[i l]|] eqn:Hl; simpl.
  2:{ intros [= <- <- <-]. left. split_and!; [done..|].
      right. by repeat constructor. }
  destruct (decide (email l = e)) as [He|He].
  2:{ rewrite (bool_decide_eq_false_2 _ He). simpl. intros [= <- <- <-].
      left. split_and!; [done..|]. right. by repeat constructor. }
  rewrite (bool_decide_eq_true_2 _ He). simpl.
  destruct (decide (status l = "ACTIVATED")) as [Hs|Hs].
  { rewrite (bool_decide_eq_true_2 _ Hs).
    destruct (bool_decide (machineId l = Some m)); simpl;
      intros [= <- <- <-]; left; (split_and!; [done..|]);
      right; by repeat constructor. }
  rewrite (bool_decide_eq_false_2 _ Hs).
  destruct (saveOutcome env); simpl; intros [= <- <- <-].
  - right. exists e, k, m, i, l. done.
  - left. split_and!; [done..|by left].
  - left. split_and!; [done..|by left].
Qed.

(** [/activate-license] always answers. *)
Lemma activateLicense_total (env : Env) (body : ActivateBody) (s : Server) :
  ∃ r s' log, activateLicense env body s = Done r s' log.
Proof.
  unfold activateLicense.
  destruct (_ || _); [unfold ret; eauto|].
  destruct (al_email body) as [e|], (al_licenseKey body) as [k|],
    (al_machineId body) as [m|]; try (unfold ret; by eauto).
  unfold tryCatch, activateStored, bind, findOne, saveAt, ret.
  destruct (findThrows env 0); simpl; [eauto|].
  destruct (lookupKey k (licenses s)) as [[i l]|]; simpl; [|eauto].
  destruct (bool_decide (email l = e)); simpl; [|eauto].
  destruct (bool_decide (status l = "ACTIVATED")); simpl.
  { destruct (bool_decide (machineId l = Some m)); simpl; eauto. }
  destruct (saveOutcome env); simpl; eauto.
Qed.

(** ** The generator's loop *)

(** Induction over the draws, three at a time, as the loop consumes them. *)
Lemma draws_ind3 (P : list Js.Draw → Prop) :
  P [] → (∀ d1, P [d1]) → (∀ d1 d2, P [d1; d2]) →
  (∀ d1 d2 d3 rest, P rest → P (d1 :: d2 :: d3 :: rest)) →
  ∀ draws, P draws.
Proof.
  intros H0 H1 H2 H3. fix IH 1.
  intros [|d1 [|d2 [|d3 rest]]]; [apply H0|apply H1|apply H2|].
  apply H3, IH.
Qed.

(** One round of the loop. *)
Lemma generate_round (throws : nat → bool) (n : nat) d1 d2 d3 rest (s : Server) :
  generateUniqueLicenseKey throws n (d1 :: d2 :: d3 :: rest) s
  = if throws n then Thrown s [OpFindOne (candidateKey d1 d2 d3)]
    else match lookupKey (candidateKey d1 d2 d3) (licenses s) with
         | Some _ =>
             match generateUniqueLicenseKey throws (S n) rest s with
             | Done a s2 l2 => Done a s2 (OpFindOne (candidateKey d1 d2 d3) :: l2)
             | Thrown s2 l2 => Thrown s2 (OpFindOne (candidateKey d1 d2 d3) :: l2)
             | OutOfDraws => OutOfDraws
             end
         | None => Done (candidateKey d1 d2 d3) s [OpFindOne (candidateKey d1 d2 d3)]
         end.
Proof.
  simpl. unfold bind, findOne. destruct (throws n); [done|].
  destruct (lookupKey _ _) as [[i l]|]; done.
Qed.

(** Fewer than three draws left: the loop cannot complete a round. *)
Lemma generate_short (throws : nat → bool) (n : nat) draws (s : Server) :
  candidates draws = [] →
  generateUniqueLicenseKey throws n draws s = OutOfDraws.
Proof. by destruct draws as [|d1 [|d2 [|d3 rest]]]. Qed.

(** The loop never changes the state, and all it does is [findOne]. *)
Lemma generate_Done (throws : nat → bool) draws :
  ∀ n s key s' log,
    generateUniqueLicenseKey throws n draws s = Done key s' log →
    s' = s
    ∧ lookupKey key (licenses s) = None
    ∧ ∃ k, candidates draws !! k = Some key
        ∧ (∀ j c, j < k → candidates draws !! j = Some c →
             is_Some (lookupKey c (licenses s)))
        ∧ (∀ j, j ≤ k → throws (n + j) = false)
        ∧ log = OpFindOne <$> take (S k) (candidates draws).
Proof.
  induction draws as [| | |d1 d2 d3 rest IH] using draws_ind3;
    intros n s key s' log; try done.
  rewrite generate_round.
  destruct (throws n) eqn:Ht; [done|].
  destruct (lookupKey (candidateKey d1 d2 d3) (licenses s)) as [[i l]|] eqn:Hl.
  - destruct (generateUniqueLicenseKey throws (S n) rest s)
      as [a s2 l2| |] eqn:Hg; try done.
    intros [= -> -> <-].
    destruct (IH _ _ _ _ _ Hg) as (-> & Habs & k & Hk & Hpre & Hth & ->).
    split_and!; [done..|]. exists (S k). split_and!.
    + done.
    + intros [|j] c Hj Hc; simpl in Hc.
      * injection Hc as <-. by rewrite Hl.
      * apply (Hpre j); [lia|done].
    + intros [|j] Hj.
      * by rewrite Nat.add_0_r.
      * rewrite <-Nat.add_succ_comm. apply Hth. lia.
    + done.
  - intros [= <- <- <-]. split_and!; [done..|]. exists 0. split_and!.
    + done.
    + intros j c Hj. lia.
    + intros j Hj. assert (j = 0) as -> by lia. by rewrite Nat.add_0_r.
    + done.
Qed.

Lemma generate_Thrown (throws : nat → bool) draws :
  ∀ n s s' log,
    generateUniqueLicenseKey throws n draws s = Thrown s' log →
    s' = s ∧ ∃ k, log = OpFindOne <$> take (S k) (candidates draws).
Proof.
  induction draws as [| | |d1 d2 d3 rest IH] using draws_ind3;
    intros n s s' log; try done.
  rewrite generate_round.
  destruct (throws n) eqn:Ht.
  { intros [= <- <-]. split; [done|]. by exists 0. }
  destruct (lookupKey (candidateKey d1 d2 d3) (licenses s)) as [[i l]|] eqn:Hl;
    [|done].
  destruct (generateUniqueLicenseKey throws (S n) rest s)
    as [a s2 l2|s2 l2|] eqn:Hg; try done.
  intros [= -> <-]. destruct (IH _ _ _ _ Hg) as (-> & k & ->).
  split; [done|]. by exists (S k).
Qed.

(** The loop returns as soon as a candidate is absent from the collection:
    it ends at the first such candidate, provided the lookups up to it go
    through. *)
Lemma generate_finds (throws : nat → bool) draws :
  ∀ n s k key,
    candidates draws !! k = Some key →
    lookupKey key (licenses s) = None →
    (∀ j c, j < k → candidates draws !! j = Some c →
       is_Some (lookupKey c (licenses s))) →
    (∀ j, j ≤ k → throws (n + j) = false) →
    generateUniqueLicenseKey throws n draws s
    = Done key s (OpFindOne <$> take (S k) (candidates draws)).
Proof.
  induction draws as [| | |d1 d2 d3 rest IH] using draws_ind3;
    intros n s k key Hk Habs Hpre Hth; try done.
  rewrite generate_round.
  rewrite <-(Nat.add_0_r n) at 1. rewrite (Hth 0) by lia.
  destruct k as [|k]; simpl in Hk.
  - injection Hk as <-. by rewrite Habs.
  - destruct (Hpre 0 (candidateKey d1 d2 d3)) as [x Hx]; [lia|done|].
    rewrite Hx.
    rewrite (IH (S n) s k key); [done..| |].
    + intros j c Hj Hc. apply (Hpre (S j)); [lia|done].
    + intros j Hj. rewrite Nat.add_succ_comm. apply Hth. lia.
Qed.

(** C7.  [generateUniqueLicenseKey] returns a candidate only when the
    [findOne] made for it found no license with that key: the returned key
    was absent from the collection when it was checked, every candidate
    generated before it was found present, and the loop did nothing but
    these lookups.  Conversely the loop does return: it goes on while the
    candidates are present and stops with the first absent one. *)
Theorem generateUnique_returns_absent (throws : nat → bool) (n : nat)
    (draws : list Js.Draw) (s : Server) :
  (∀ key s' log,
     generateUniqueLicenseKey throws n draws s = Done key s' log →
     s' = s
     ∧ lookupKey key (licenses s) = None
     ∧ ∃ k, candidates draws !! k = Some key
         ∧ (∀ j c, j < k → candidates draws !! j = Some c →
              is_Some (lookupKey c (licenses s)))
         ∧ log = OpFindOne <$> take (S k) (candidates draws))
  ∧ (∀ k key,
     candidates draws !! k = Some key →
     lookupKey key (licenses s) = None →
     (∀ j c, j < k → candidates draws !! j = Some c →
        is_Some (lookupKey c (licenses s))) →
     (∀ j, j ≤ k → throws (n + j) = false) →
     generateUniqueLicenseKey throws n draws s
     = Done key s (OpFindOne <$> take (S k) (candidates draws))).
Proof.
  split.
  - intros key s' log Hg.
    destruct (generate_Done _ _ _ _ _ _ _ Hg) as (-> & Habs & k & Hk & Hpre & _ & ->).
    split_and!; [done..|]. exists k. done.
  - intros k key. apply generate_finds.
Qed.

Lemma generateUnique_witness :
  generateUniqueLicenseKey (λ _, false) 0 (drawsABCD ++ drawsMNOP) issuedServer
  = Done "MNOP-QRST-UVWX" issuedServer
      (OpFindOne <$> take 2 (candidates (drawsABCD ++ drawsMNOP)))
  ∧ lookupKey "MNOP-QRST-UVWX" (licenses issuedServer) = None.
Proof.
  pose proof (proj2 (generateUnique_returns_absent (λ _, false) 0
                       (drawsABCD ++ drawsMNOP) issuedServer)
                1 "MNOP-QRST-UVWX" eq_refl eq_refl) as Hret.
  assert (generateUniqueLicenseKey (λ _, false) 0 (drawsABCD ++ drawsMNOP)
            issuedServer
          = Done "MNOP-QRST-UVWX" issuedServer
              (OpFindOne <$> take 2 (candidates (drawsABCD ++ drawsMNOP))))
    as Hrun.
  { apply Hret.
    - intros [|j] c Hj Hc; [|lia]. injection Hc as <-.
      exists (0, licenseU123). reflexivity.
    - reflexivity. }
  split; [exact Hrun|].
  exact (proj1 (proj2 (proj1 (generateUnique_returns_absent (λ _, false) 0
                                (drawsABCD ++ drawsMNOP) issuedServer)
                         _ _ _ Hrun))).
Defined.

(** The loop ends -- with a key or with the exception of a lookup -- as soon
    as the draws hold a candidate that is absent from the collection. *)
Lemma generate_ends (throws : nat → bool) draws :
  ∀ n s k key,
    candidates draws !! k = Some key →
    lookupKey key (licenses s) = None →
    generateUniqueLicenseKey throws n draws s ≠ OutOfDraws.
Proof.
  induction draws as [| | |d1 d2 d3 rest IH] using draws_ind3;
    intros n s k key Hk Habs; try done.
  rewrite generate_round. destruct (throws n); [done|].
  destruct (lookupKey (candidateKey d1 d2 d3) (licenses s)) as [[i l]|] eqn:Hl;
    [|done].
  destruct k as [|k]; simpl in Hk; [congruence|].
  specialize (IH (S n) s k key Hk Habs).
  by destruct (generateUniqueLicenseKey throws (S n) rest s).
Qed.

(** ** Issuing: the [try] block of [/send-license] *)

(** What the [try] block does once the generator has returned [key]. *)
Lemma issue_with_key (env : Env) (e u n p : string) (s : Server) key finds :
  generateUniqueLicenseKey (findThrows env) 0 (random env) s = Done key s finds →
  tryCatch (issueLicense env e u n p) (ret resInternalError) s
  = match saveOutcome env with
    | SaveOk =>
        if emailConfigured env then
          if sendMailThrows env then
            Done resInternalError
              (setLicenses s (licenses s ++ [newLicense e u n p key]))
              (finds ++ [OpInsert (newLicense e u n p key); OpSendMail e key])
          else if writeFileThrows env then
            Done resInternalError
              (addUsed (setLicenses s (licenses s ++ [newLicense e u n p key])) u)
              (finds ++ [OpInsert (newLicense e u n p key); OpSendMail e key;
                         OpWriteUsedIds ({[ u ]} ∪ usedUserIds s)])
          else
            Done resIssuedEmailed
              (writeUsedIdsFile
                 (addUsed (setLicenses s (licenses s ++ [newLicense e u n p key])) u))
              (finds ++ [OpInsert (newLicense e u n p key); OpSendMail e key;
                         OpWriteUsedIds ({[ u ]} ∪ usedUserIds s)])
        else if writeFileThrows env then
          Done resInternalError
            (addUsed (setLicenses s (licenses s ++ [newLicense e u n p key])) u)
            (finds ++ [OpInsert (newLicense e u n p key);
                       OpWriteUsedIds ({[ u ]} ∪ usedUserIds s)])
        else
          Done (resIssuedNoEmail key)
            (writeUsedIdsFile
               (addUsed (setLicenses s (licenses s ++ [newLicense e u n p key])) u))
            (finds ++ [OpInsert (newLicense e u n p key);
                       OpWriteUsedIds ({[ u ]} ∪ usedUserIds s)])
    | _ => Done resInternalError s (finds ++ [OpInsert (newLicense e u n p key)])
    end.
Proof.
  intros Hg. unfold tryCatch, issueLicense, bind. rewrite Hg.
  unfold saveNew, sendMail, markUserIdAsUsed, ret.
  destruct (saveOutcome env), (emailConfigured env), (sendMailThrows env),
    (writeFileThrows env); simpl; by rewrite ?app_nil_r.
Qed.

Lemma issue_find_throws (env : Env) (e u n p : string) (s s1 : Server) finds :
  generateUniqueLicenseKey (findThrows env) 0 (random env) s = Thrown s1 finds →
  tryCatch (issueLicense env e u n p) (ret resInternalError) s
  = Done resInternalError s finds.
Proof.
  intros Hg. destruct (generate_Thrown _ _ _ _ _ _ Hg) as [-> _].
  unfold tryCatch, issueLicense, bind. rewrite Hg. simpl. by rewrite app_nil_r.
Qed.

Lemma issue_out_of_draws (env : Env) (e u n p : string) (s : Server) :
  generateUniqueLicenseKey (findThrows env) 0 (random env) s = OutOfDraws →
  tryCatch (issueLicense env e u n p) (ret resInternalError) s = OutOfDraws.
Proof. intros Hg. unfold tryCatch, issueLicense, bind. by rewrite Hg. Qed.

(** Every way [/send-license] can end: it is turned down before the [try]
    block, or it reaches the block with an eligible id, and then everything
    follows from how the generator ended. *)
Lemma sendLicense_inv (env : Env) (body : SendLicenseBody) (s s' : Server)
    (r : Response) (log : list Op) :
  sendLicense env body s = Done r s' log →
  (s' = s ∧ log = [] ∧ httpCode r = 400 ∧ resStatus r = "ERROR")
  ∨ ∃ e u n p,
      body = mkSendLicenseBody (Some e) (Some u) (Some n) (Some p)
      ∧ u ∈ validUserIds s ∧ (u ∉ usedUserIds s)
      ∧ tryCatch (issueLicense env e u n p) (ret resInternalError) s = Done r s' log
      ∧ ((∃ s1, generateUniqueLicenseKey (findThrows env) 0 (random env) s
                = Thrown s1 log)
         ∨ (∃ key finds,
              generateUniqueLicenseKey (findThrows env) 0 (random env) s
              = Done key s finds)).
Proof.
  unfold sendLicense.
  destruct (truthy (sl_email body)) eqn:Te; simpl;
    [|intros [= <- <- <-]; by left].
  destruct (truthy (sl_userId body)) eqn:Tu; simpl;
    [|intros [= <- <- <-]; by left].
  destruct (truthy (sl_name body)) eqn:Tn; simpl;
    [|intros [= <- <- <-]; by left].
  destruct (truthy (sl_phoneNumber body)) eqn:Tp; simpl;
    [|intros [= <- <- <-]; by left].
  apply truthy_Some in Te as (e & Ee & _), Tu as (u & Eu & _),
    Tn as (n & En & _), Tp as (p & Ep & _).
  destruct body as [be bu bn bp]; simpl in *; subst be bu bn bp.
  destruct (valid (validateUserIdDirectAndUnused s u)) eqn:Hv; simpl.
  2:{ intros [= <- <- <-]. by left. }
  apply validate_valid_iff in Hv as [Hin Hnot].
  intros Hrun. right. exists e, u, n, p. split_and!; [done..|].
  destruct (generateUniqueLicenseKey (findThrows env) 0 (random env) s)
    as [key s1 finds|s1 finds|] eqn:Hg.
  - right. destruct (generate_Done _ _ _ _ _ _ _ Hg) as [-> _]. eauto.
  - left. rewrite (issue_find_throws _ _ _ _ _ _ _ _ Hg) in Hrun.
    simplify_eq. eauto.
  - by rewrite issue_out_of_draws in Hrun.
Qed.

(** The state [/send-license] leaves behind: the one it found, or that one
    with the new license appended and, possibly, the id marked as used. *)
Lemma sendLicense_state (env : Env) (body : SendLicenseBody) (s s' : Server)
    (r : Response) (log : list Op) :
  sendLicense env body s = Done r s' log →
  s' = s
  ∨ ∃ e u n p key,
      body = mkSendLicenseBody (Some e) (Some u) (Some n) (Some p)
      ∧ (s' = setLicenses s (licenses s ++ [newLicense e u n p key])
         ∨ s' = addUsed (setLicenses s (licenses s ++ [newLicense e u n p key])) u
         ∨ s' = writeUsedIdsFile
                  (addUsed (setLicenses s (licenses s ++ [newLicense e u n p key])) u)).
Proof.
  intros Hrun.
  destruct (sendLicense_inv _ _ _ _ _ _ Hrun)
    as [(-> & _)|(e & u & n & p & -> & _ & _ & Htry & [[s1 Hg]|(key & finds & Hg)])];
    [by left| |].
  - rewrite (issue_find_throws _ _ _ _ _ _ _ _ Hg) in Htry.
    simplify_eq. by left.
  - rewrite (issue_with_key _ _ _ _ _ _ _ _ Hg) in Htry.
    destruct (saveOutcome env), (emailConfigured env), (sendMailThrows env),
      (writeFileThrows env); simplify_eq;
      first [by left | right; exists e, u, n, p, key; by eauto 6].
Qed.

(** [/send-license] answers whenever the draws hold a candidate that is not
    yet a key of the collection. *)
Lemma sendLicense_answers (env : Env) (body : SendLicenseBody) (s : Server) k key :
  candidates (random env) !! k = Some key →
  lookupKey key (licenses s) = None →
  ∃ r s' log, sendLicense env body s = Done r s' log.
Proof.
  intros Hk Habs. unfold sendLicense.
  destruct (_ || _); [unfold ret; eauto|].
  destruct (sl_email body) as [e|], (sl_userId body) as [u|],
    (sl_name body) as [n|], (sl_phoneNumber body) as [p|];
    try (unfold ret; by eauto).
  destruct (valid (validateUserIdDirectAndUnused s u)); simpl;
    [|unfold ret; eauto].
  pose proof (generate_ends (findThrows env) (random env) 0 s k key Hk Habs)
    as Hends.
  destruct (generateUniqueLicenseKey (findThrows env) 0 (random env) s)
    as [key' s1 finds|s1 finds|] eqn:Hg; [| |done].
  - destruct (generate_Done _ _ _ _ _ _ _ Hg) as [-> _].
    rewrite (issue_with_key _ _ _ _ _ _ _ _ Hg).
    destruct (saveOutcome env), (emailConfigured env), (sendMailThrows env),
      (writeFileThrows env); eauto.
  - rewrite (issue_find_throws _ _ _ _ _ _ _ _ Hg). eauto.
Qed.

(** ** What requests preserve *)

Lemma lookupKey_Some (k : string) (ls : list License) i l :
  lookupKey k ls = Some (i, l)
  ↔ ls !! i = Some l ∧ licenseKey l = k
    ∧ ∀ j y, ls !! j = Some y → j < i → licenseKey y ≠ k.
Proof. unfold lookupKey. by rewrite list_find_Some. Qed.

(** A request leaves the collection as it is, appends one document, or
    activates one document that was not activated. *)
Lemma handle_licenses (env : Env) (req : Request) (s s' : Server)
    (res : Response) (log : list Op) :
  handle env req s = Done res s' log →
  licenses s' = licenses s
  ∨ (∃ doc, licenses s' = licenses s ++ [doc])
  ∨ (∃ i l m t, licenses s !! i = Some l ∧ status l ≠ "ACTIVATED"
       ∧ licenses s' = <[i := activated l m t]> (licenses s)).
Proof.
  destruct req as [body|body]; simpl; intros Hrun.
  - destruct (sendLicense_state _ _ _ _ _ _ Hrun)
      as [->|(e & u & n & p & key & _ & [->|[->| ->]])]; eauto.
  - destruct (activateLicense_inv _ _ _ _ _ _ Hrun)
      as [[-> _]|(e & k & m & i & l & _ & _ & _ & _ & Hl & _ & Hs & _ & -> & _)];
      [by left|].
    apply lookupKey_Some in Hl as (Hi & _). right; right.
    exists i, l, m, (now env). done.
Qed.

(** The id sets only grow, and the allow-list is never written. *)
Lemma handle_ids (env : Env) (req : Request) (s s' : Server)
    (res : Response) (log : list Op) :
  handle env req s = Done res s' log →
  validUserIds s' = validUserIds s ∧ usedUserIds s ⊆ usedUserIds s'.
Proof.
  destruct req as [body|body]; simpl; intros Hrun.
  - destruct (sendLicense_state _ _ _ _ _ _ Hrun)
      as [->|(e & u & n & p & key & _ & [->|[->| ->]])]; simpl;
      split; set_solver.
  - destruct (activateLicense_inv _ _ _ _ _ _ Hrun)
      as [[-> _]|(e & k & m & i & l & _ & _ & _ & _ & _ & _ & _ & _ & -> & _)];
      simpl; split; set_solver.
Qed.

(** An activated document is never written again. *)
Lemma handle_frozen (env : Env) (req : Request) (s s' : Server)
    (res : Response) (log : list Op) i l :
  handle env req s = Done res s' log →
  licenses s !! i = Some l → status l = "ACTIVATED" →
  licenses s' !! i = Some l.
Proof.
  intros Hrun Hi Hst.
  destruct (handle_licenses _ _ _ _ _ _ Hrun)
    as [->|[[doc ->]|(j & l' & m & t & Hj & Hs & ->)]].
  - done.
  - by apply lookup_app_l_Some.
  - destruct (decide (j = i)) as [->|Hne].
    + rewrite Hi in Hj. injection Hj as <-. done.
    + by rewrite list_lookup_insert_ne.
Qed.

(** No request removes a document or changes the key of one. *)
Lemma handle_keys (env : Env) (req : Request) (s s' : Server)
    (res : Response) (log : list Op) :
  handle env req s = Done res s' log →
  (licenseKey <$> licenses s) `prefix_of` (licenseKey <$> licenses s').
Proof.
  intros Hrun.
  destruct (handle_licenses _ _ _ _ _ _ Hrun)
    as [->|[[doc ->]|(j & l' & m & t & Hj & Hs & ->)]].
  - done.
  - rewrite fmap_app. by apply prefix_app_r.
  - rewrite list_fmap_insert. simpl.
    rewrite list_insert_id; [done|]. by rewrite list_lookup_fmap, Hj.
Qed.

Lemma steps_ids (s s' : Server) :
  steps s s' →
  validUserIds s' = validUserIds s ∧ usedUserIds s ⊆ usedUserIds s'.
Proof.
  induction 1 as [s|s1 s2 s3 (env & req & res & log & Hrun) _ [IHv IHu]].
  - done.
  - destruct (handle_ids _ _ _ _ _ _ Hrun) as [Hv Hu].
    split; [congruence|set_solver].
Qed.

Lemma steps_frozen (s s' : Server) i l :
  steps s s' →
  licenses s !! i = Some l → status l = "ACTIVATED" →
  licenses s' !! i = Some l.
Proof.
  induction 1 as [s|s1 s2 s3 (env & req & res & log & Hrun) _ IH]; [done|].
  intros Hi Hst. apply IH; [|done]. by eapply handle_frozen.
Qed.

Lemma steps_keys (s s' : Server) :
  steps s s' →
  (licenseKey <$> licenses s) `prefix_of` (licenseKey <$> licenses s').
Proof.
  induction 1 as [s|s1 s2 s3 (env & req & res & log & Hrun) _ IH]; [done|].
  etrans; [by eapply handle_keys|done].
Qed.

(** So a lookup that found an activated document keeps finding that very
    document, at the same position, whatever requests are served. *)
Lemma steps_lookupKey (s s' : Server) (k : string) i l :
  steps s s' →
  lookupKey k (licenses s) = Some (i, l) → status l = "ACTIVATED" →
  lookupKey k (licenses s') = Some (i, l).
Proof.
  intros Hsteps (Hi & Hk & Hleast)%lookupKey_Some Hst.
  apply lookupKey_Some. split_and!; [by eapply steps_frozen|done|].
  intros j y Hj Hlt Hy.
  destruct (steps_keys _ _ Hsteps) as [tail Htail].
  assert (j < length (licenses s)) as Hlen.
  { apply lookup_lt_Some in Hi. lia. }
  destruct (lookup_lt_is_Some_2 (licenses s) j Hlen) as [y0 Hy0].
  apply (Hleast j y0 Hy0 Hlt).
  assert ((licenseKey <$> licenses s') !! j = Some (licenseKey y0)) as Hj'.
  { rewrite Htail. apply lookup_app_l_Some. by rewrite list_lookup_fmap, Hy0. }
  rewrite list_lookup_fmap, Hj in Hj'. simpl in Hj'. congruence.
Qed.

Lemma steps_trans (s1 s2 s3 : Server) : steps s1 s2 → steps s2 s3 → steps s1 s3.
Proof.
  induction 1 as [s|sa sb sc Hstep _ IH]; [done|].
  intros H. eapply steps_cons; [done|]. by apply IH.
Qed.

Lemma steps_one (env : Env) (req : Request) (s s' : Server) res log :
  handle env req s = Done res s' log → steps s s'.
Proof.
  intros H. eapply steps_cons; [|apply steps_refl]. by exists env, req, res, log.
Qed.

(** ** Activation: the claims *)

(** C10.  The three ways [/activate-license] turns a request down -- no
    license with that key, a license owned by another email address, a
    license activated on another machine -- each answer after the lookup
    alone: the state is the one before the call and the only operation
    performed is the [findOne].  More generally, whenever the handler
    answers with status ERROR the state is unchanged, and when it does so
    with HTTP 200 no write was even attempted. *)
Theorem activate_rejections_leave_state (env : Env) (s : Server) :
  (∀ e k m, e ≠ "" → k ≠ "" → m ≠ "" → findThrows env 0 = false →
     (lookupKey k (licenses s) = None →
      activateLicense env (mkActivateBody (Some e) (Some k) (Some m)) s
      = Done resInvalidKey s [OpFindOne k])
     ∧ (∀ i l, lookupKey k (licenses s) = Some (i, l) → email l ≠ e →
        activateLicense env (mkActivateBody (Some e) (Some k) (Some m)) s
        = Done resEmailMismatch s [OpFindOne k])
     ∧ (∀ i l, lookupKey k (licenses s) = Some (i, l) → email l = e →
        status l = "ACTIVATED" → machineId l ≠ Some m →
        activateLicense env (mkActivateBody (Some e) (Some k) (Some m)) s
        = Done resMachineMismatch s [OpFindOne k]))
  ∧ (∀ body r s' log,
     activateLicense env body s = Done r s' log → resStatus r = "ERROR" →
     s' = s ∧ (httpCode r = 200 → Forall (λ o, isWrite o = false) log)).
Proof.
  split.
  - intros e k m He Hk Hm Hf. split_and!.
    + by apply activate_not_found.
    + intros i l. by apply activate_email_mismatch.
    + intros i l. by apply activate_machine_mismatch.
  - intros body r s' log Hrun Herr.
    destruct (activateLicense_inv _ _ _ _ _ _ Hrun)
      as [(-> & _ & Hlog)|(e & k & m & i & l & _ & _ & _ & _ & _ & _ & _ & -> & _)].
    + split; [done|]. intros H200. destruct Hlog as [H500|Hlog]; [|done].
      rewrite H200 in H500. discriminate.
    + discriminate.
Qed.

Lemma activate_rejections_witness :
  activateLicense (quietEnv []) (activateU123 "mach-2") activatedServer
  = Done resMachineMismatch activatedServer [OpFindOne "ABCD-EFGH-IJKL"].
Proof.
  refine (proj2 (proj2 (proj1
    (activate_rejections_leave_state (quietEnv []) activatedServer)
    "a@b.com" "ABCD-EFGH-IJKL" "mach-2" _ _ _ _))
    0 (activated licenseU123 "mach-1" 1700000000000) _ _ _ _);
    first [reflexivity | discriminate].
Defined.

(** ** The format of a key *)

Lemma upper_digit (d : N) :
  (d < 36)%N → Js.isUpperAlnum (Js.toUpperAscii (Js.digitChar d)) = true.
Proof.
  intros Hd. destruct d as [|p]; [reflexivity|].
  do 6 (try destruct p as [p|p|]); try reflexivity; lia.
Qed.

(** A draw that prints at least four digits gives a segment of exactly four
    characters, each the upper-case digit in its place. *)
Lemma segment_long (a b c d : N) (rest : Js.Draw) :
  segment (a :: b :: c :: d :: rest)
  = String (Js.toUpperAscii (Js.digitChar a))
      (String (Js.toUpperAscii (Js.digitChar b))
         (String (Js.toUpperAscii (Js.digitChar c))
            (String (Js.toUpperAscii (Js.digitChar d)) EmptyString))).
Proof.
  unfold segment, Js.substring, Js.toString36. simpl.
  by destruct (String.string_of_list_ascii (map Js.digitChar rest)).
Qed.

(** A segment never has more than four characters. *)
Lemma segment_length (d : Js.Draw) : String.length (segment d) ≤ 4.
Proof.
  destruct d as [|a [|b [|c [|x rest]]]];
    [simpl; lia..|rewrite segment_long; simpl; lia].
Qed.

Lemma string_app_length (a b : string) :
  String.length (a +:+ b) = String.length a + String.length b.
Proof. induction a as [|c a IH]; simpl; [done|]. by rewrite IH. Qed.

(** So a key never has more than 14 characters ... *)
Lemma candidateKey_length (d1 d2 d3 : Js.Draw) :
  String.length (candidateKey d1 d2 d3) ≤ 14.
Proof.
  unfold candidateKey. rewrite !string_app_length. simpl.
  pose proof (segment_length d1). pose proof (segment_length d2).
  pose proof (segment_length d3). lia.
Qed.

(** ... and it has the format [XXXX-XXXX-XXXX] when each of the three draws
    prints at least four digits. *)
Lemma candidateKey_format (d1 d2 d3 : Js.Draw) :
  Js.wellFormed d1 → Js.wellFormed d2 → Js.wellFormed d3 →
  4 ≤ length d1 → 4 ≤ length d2 → 4 ≤ length d3 →
  Js.matchesKeyFormat (candidateKey d1 d2 d3) = true
  ∧ String.length (candidateKey d1 d2 d3) = 14.
Proof.
  intros W1 W2 W3 L1 L2 L3.
  destruct d1 as [|a1 [|a2 [|a3 [|a4 r1]]]]; simpl in L1; try lia.
  destruct d2 as [|b1 [|b2 [|b3 [|b4 r2]]]]; simpl in L2; try lia.
  destruct d3 as [|c1 [|c2 [|c3 [|c4 r3]]]]; simpl in L3; try lia.
  unfold candidateKey. rewrite !segment_long.
  unfold Js.wellFormed in *.
  repeat match goal with
         | H : Forall _ (_ :: _) |- _ => apply Forall_cons in H as [? H]
         end.
  split; [|reflexivity].
  unfold Js.matchesKeyFormat. simpl.
  rewrite !upper_digit by done. reflexivity.
Qed.

(** C3 fails on the code: a draw that prints fewer than four digits gives
    a shorter segment.  When [Math.random()] returns [0.5] three times the
    candidate is ["I-I-I"], five characters long, it does not match the
    format, and with no such key in the collection the generator returns
    it. *)
Theorem short_draws_short_key :
  Js.toString36 half = "0.i"
  ∧ candidateKey half half half = "I-I-I"
  ∧ String.length (candidateKey half half half) = 5
  ∧ Js.matchesKeyFormat (candidateKey half half half) = false
  ∧ generateUniqueLicenseKey (λ _, false) 0 [half; half; half] freshServer
    = Done "I-I-I" freshServer [OpFindOne "I-I-I"].
Proof. split_and!; reflexivity. Qed.

(** ** Issuing: the claims *)

Lemma lookups_only (xs : list string) (o : Op) :
  o ∈ OpFindOne <$> xs → ∃ k, o = OpFindOne k.
Proof. intros (k & -> & _)%list_elem_of_fmap. eauto. Qed.

Lemma generate_Done_log (throws : nat → bool) n draws s key s' finds :
  generateUniqueLicenseKey throws n draws s = Done key s' finds →
  ∀ o, o ∈ finds → ∃ k, o = OpFindOne k.
Proof.
  intros Hg o Ho.
  destruct (generate_Done _ _ _ _ _ _ _ Hg) as (_ & _ & k & _ & _ & _ & ->).
  by eapply lookups_only.
Qed.

Lemma generate_Thrown_log (throws : nat → bool) n draws s s' finds :
  generateUniqueLicenseKey throws n draws s = Thrown s' finds →
  ∀ o, o ∈ finds → ∃ k, o = OpFindOne k.
Proof.
  intros Hg o Ho. destruct (generate_Thrown _ _ _ _ _ _ Hg) as (_ & k & ->).
  by eapply lookups_only.
Qed.













(** * Further properties of the server *)

(** ** One [/send-license], in full *)

Lemma candidateKey_nonempty (d1 d2 d3 : Js.Draw) : candidateKey d1 d2 d3 ≠ "".
Proof.
  intros H. apply (f_equal String.length) in H. revert H.
  unfold candidateKey. rewrite !string_app_length. simpl. lia.
Qed.

Lemma candidates_elem (draws : list Js.Draw) (k : nat) (c : string) :
  candidates draws !! k = Some c → ∃ d1 d2 d3, c = candidateKey d1 d2 d3.
Proof.
  revert k. induction draws as [| | |d1 d2 d3 rest IH] using draws_ind3;
    intros k Hk; try done.
  destruct k as [|k]; simpl in Hk.
  - injection Hk as <-. eauto.
  - by eapply IH.
Qed.

(** Every way [/send-license] can end, with all that is known in each. *)
Lemma sendLicense_run (env : Env) (body : SendLicenseBody) (s s' : Server)
    (r : Response) (log : list Op) :
  sendLicense env body s = Done r s' log →
  (s' = s ∧ log = [] ∧ httpCode r = 400 ∧ resStatus r = "ERROR")
  ∨ ∃ e u n p,
      body = mkSendLicenseBody (Some e) (Some u) (Some n) (Some p)
      ∧ e ≠ "" ∧ u ≠ "" ∧ n ≠ "" ∧ p ≠ ""
      ∧ u ∈ validUserIds s ∧ (u ∉ usedUserIds s)
      ∧ ((s' = s ∧ r = resInternalError ∧ ∀ o, o ∈ log → ∃ c, o = OpFindOne c)
         ∨ ∃ key finds,
             lookupKey key (licenses s) = None ∧ key ≠ ""
             ∧ (∀ o, o ∈ finds → ∃ c, o = OpFindOne c)
             ∧ Done r s' log
               = match saveOutcome env with
                 | SaveOk =>
                     if emailConfigured env then
                       if sendMailThrows env then
                         Done resInternalError
                           (setLicenses s (licenses s ++ [newLicense e u n p key]))
                           (finds ++ [OpInsert (newLicense e u n p key);
                                      OpSendMail e key])
                       else if writeFileThrows env then
                         Done resInternalError
                           (addUsed (setLicenses s
                                       (licenses s ++ [newLicense e u n p key])) u)
                           (finds ++ [OpInsert (newLicense e u n p key);
                                      OpSendMail e key;
                                      OpWriteUsedIds ({[ u ]} ∪ usedUserIds s)])
                       else
                         Done resIssuedEmailed
                           (writeUsedIdsFile
                              (addUsed (setLicenses s
                                          (licenses s ++ [newLicense e u n p key])) u))
                           (finds ++ [OpInsert (newLicense e u n p key);
                                      OpSendMail e key;
                                      OpWriteUsedIds ({[ u ]} ∪ usedUserIds s)])
                     else if writeFileThrows env then
                       Done resInternalError
                         (addUsed (setLicenses s
                                     (licenses s ++ [newLicense e u n p key])) u)
                         (finds ++ [OpInsert (newLicense e u n p key);
                                    OpWriteUsedIds ({[ u ]} ∪ usedUserIds s)])
                     else
                       Done (resIssuedNoEmail key)
                         (writeUsedIdsFile
                            (addUsed (setLicenses s
                                        (licenses s ++ [newLicense e u n p key])) u))
                         (finds ++ [OpInsert (newLicense e u n p key);
                                    OpWriteUsedIds ({[ u ]} ∪ usedUserIds s)])
                 | _ => Done resInternalError s
                          (finds ++ [OpInsert (newLicense e u n p key)])
                 end).
Proof.
  unfold sendLicense.
  destruct (truthy (sl_email body)) eqn:Te; simpl;
    [|intros [= <- <- <-]; by left].
  destruct (truthy (sl_userId body)) eqn:Tu; simpl;
    [|intros [= <- <- <-]; by left].
  destruct (truthy (sl_name body)) eqn:Tn; simpl;
    [|intros [= <- <- <-]; by left].
  destruct (truthy (sl_phoneNumber body)) eqn:Tp; simpl;
    [|intros [= <- <- <-]; by left].
  apply truthy_Some in Te as (e & Ee & Ne), Tu as (u & Eu & Nu),
    Tn as (n & En & Nn), Tp as (p & Ep & Np).
  destruct body as [be bu bn bp]; simpl in *; subst be bu bn bp.
  destruct (valid (validateUserIdDirectAndUnused s u)) eqn:Hv; simpl.
  2:{ intros [= <- <- <-]. by left. }
  apply validate_valid_iff in Hv as [Hin Hnot].
  intros Hrun. right. exists e, u, n, p. split_and!; [done..|].
  destruct (generateUniqueLicenseKey (findThrows env) 0 (random env) s)
    as [key s1 finds|s1 finds|] eqn:Hg.
  - right. destruct (generate_Done _ _ _ _ _ _ _ Hg)
      as (-> & Habs & k & Hk & _ & _ & Hlog).
    exists key, finds. split_and!.
    + done.
    + destruct (candidates_elem _ _ _ Hk) as (d1 & d2 & d3 & ->).
      apply candidateKey_nonempty.
    + by eapply generate_Done_log.
    + by rewrite <-Hrun, (issue_with_key _ _ _ _ _ _ _ _ Hg).
  - left. rewrite (issue_find_throws _ _ _ _ _ _ _ _ Hg) in Hrun.
    simplify_eq. split_and!; [done..|]. by eapply generate_Thrown_log.
  - by rewrite issue_out_of_draws in Hrun.
Qed.

(** What a SUCCESS answer of [/send-license] means. *)
Lemma sendLicense_issued (env : Env) (body : SendLicenseBody) (s s' : Server)
    (r : Response) (log : list Op) :
  sendLicense env body s = Done r s' log → resStatus r = "SUCCESS" →
  ∃ e u n p key,
    body = mkSendLicenseBody (Some e) (Some u) (Some n) (Some p)
    ∧ e ≠ "" ∧ u ≠ "" ∧ key ≠ ""
    ∧ u ∈ validUserIds s
    ∧ lookupKey key (licenses s) = None
    ∧ s' = writeUsedIdsFile
             (addUsed (setLicenses s (licenses s ++ [newLicense e u n p key])) u)
    ∧ ((emailConfigured env = false ∧ r = resIssuedNoEmail key
        ∧ ∀ to c, OpSendMail to c ∉ log)
       ∨ (emailConfigured env = true ∧ r = resIssuedEmailed
          ∧ OpSendMail e key ∈ log)).
Proof.
  intros Hrun Hok.
  destruct (sendLicense_run _ _ _ _ _ _ Hrun)
    as [(_ & _ & _ & Herr)
       |(e & u & n & p & -> & Ne & Nu & _ & _ & Hin & _
         & [(_ & -> & _)|(key & finds & Habs & Nk & Hfinds & Heq)])];
    [congruence|done|].
  exists e, u, n, p, key.
  destruct (saveOutcome env), (emailConfigured env), (sendMailThrows env),
    (writeFileThrows env); simplify_eq; try done;
    (split_and!; [done..|]).
  - right. split_and!; [done..|]. set_solver.
  - left. split_and!; [done..|]. intros to c [Hc|Hc]%elem_of_app.
    + destruct (Hfinds _ Hc) as [? ?]. done.
    + set_solver.
  - left. split_and!; [done..|]. intros to c [Hc|Hc]%elem_of_app.
    + destruct (Hfinds _ Hc) as [? ?]. done.
    + set_solver.
Qed.

(** ** Runs used by the examples *)

Lemma run_issue_U123 :
  sendLicense (quietEnv drawsABCD) requestU123 freshServer
  = Done resIssuedEmailed issuedServer
      [OpFindOne "ABCD-EFGH-IJKL"; OpInsert licenseU123;
       OpSendMail "a@b.com" "ABCD-EFGH-IJKL"; OpWriteUsedIds {[ "U123" ]}].
Proof. vm_compute. reflexivity. Qed.

Lemma run_activate_U123 :
  activateLicense (quietEnv []) (activateU123 "mach-1") issuedServer
  = Done resActivated activatedServer
      [OpFindOne "ABCD-EFGH-IJKL";
       OpUpdate 0 (activated licenseU123 "mach-1" 1700000000000)].
Proof. vm_compute. reflexivity. Qed.

Lemma steps_fresh_issued : steps freshServer issuedServer.
Proof.
  apply (steps_one (quietEnv drawsABCD) (SendLicense requestU123) _ _ _ _
           run_issue_U123).
Qed.

Lemma steps_issued_activated : steps issuedServer activatedServer.
Proof.
  apply (steps_one (quietEnv []) (ActivateLicense (activateU123 "mach-1")) _ _ _ _
           run_activate_U123).
Qed.

(** ** Eligibility over time *)

(** X1.  No request ever writes the allow-list, and an id that the
    eligibility check refuses -- unknown or used -- is refused in every
    later state: eligibility is never gained or regained while the server
    runs. *)
Theorem eligibility_never_regained (s s' : Server) (id : string) :
  steps s s' →
  validUserIds s' = validUserIds s
  ∧ (valid (validateUserIdDirectAndUnused s id) = false →
     valid (validateUserIdDirectAndUnused s' id) = false).
Proof.
  intros Hsteps. destruct (steps_ids _ _ Hsteps) as [Hv Hu].
  split; [done|]. intros Hno. apply not_true_is_false.
  rewrite validate_valid_iff. intros [Hin Hnot].
  assert (valid (validateUserIdDirectAndUnused s id) = true) as Hyes.
  { apply validate_valid_iff. split; [congruence|set_solver]. }
  congruence.
Qed.

Lemma eligibility_never_regained_witness :
  valid (validateUserIdDirectAndUnused activatedServer "U123") = false.
Proof.
  apply (proj2 (eligibility_never_regained issuedServer activatedServer "U123"
                  steps_issued_activated)).
  vm_compute. reflexivity.
Defined.

(** X2.  After [/send-license] has answered SUCCESS for a user id, every
    later [/send-license] for that id -- whatever the other fields, whatever
    was served in between -- is answered HTTP 400 with the already-used
    message, and does nothing. *)
Theorem second_issue_is_refused (env : Env) (body : SendLicenseBody)
    (s s' : Server) (r : Response) (log : list Op) :
  sendLicense env body s = Done r s' log → resStatus r = "SUCCESS" →
  ∃ u, sl_userId body = Some u
    ∧ ∀ s'', steps s' s'' →
      ∀ env' e n p, e ≠ "" → n ≠ "" → p ≠ "" →
        sendLicense env' (mkSendLicenseBody (Some e) (Some u) (Some n) (Some p)) s''
        = Done (jsonError 400 (msgAlreadyUsed u)) s'' [].
Proof.
  intros Hrun Hok.
  destruct (sendLicense_issued _ _ _ _ _ _ Hrun Hok)
    as (e0 & u & n0 & p0 & key & -> & _ & Nu & _ & Hin & _ & -> & _).
  exists u. split; [done|]. intros s'' Hsteps env' e n p Ne Nn Np.
  destruct (steps_ids _ _ Hsteps) as [Hv Hu]. simpl in Hv, Hu.
  assert (u ∈ validUserIds s'') as Hin' by (by rewrite Hv).
  assert (u ∈ usedUserIds s'') as Hused by set_solver.
  rewrite sendLicense_fields by done.
  by rewrite (validate_used _ _ Hin' Hused).
Qed.

Lemma second_issue_witness :
  sendLicense (quietEnv drawsMNOP) requestU123 activatedServer
  = Done (jsonError 400 (msgAlreadyUsed "U123")) activatedServer [].
Proof.
  destruct (second_issue_is_refused _ _ _ _ _ _ run_issue_U123 eq_refl)
    as (u & Hu & Hrefused).
  injection Hu as <-.
  refine (Hrefused activatedServer steps_issued_activated (quietEnv drawsMNOP)
            "a@b.com" "Asha" "5550100" _ _ _); discriminate.
Defined.

(** ** [/test-userid] *)

(** X4.  [/test-userid], for a body whose [userId] is absent or a string,
    only reads: its answer comes with the state as it was and without any
    store operation.  Without a user id -- absent, or the empty string --
    the answer is HTTP 400.  Otherwise the answer reports
    [isValidAndUnused: true] exactly for the ids that are on the allow-list
    and unused, and what it reports is what [/send-license] does with that
    id in the same state: on [true] the request goes on to issue a license,
    on [false] it is refused with the very message [/test-userid] gave. *)
Theorem testUserId_previews_sendLicense (userId : option string) (s : Server) :
  ∃ r,
    testUserId userId s = Done r s []
    ∧ (truthy userId = false → r = resUserIdRequired)
    ∧ ∀ u, userId = Some u → u ≠ "" →
        tu_httpCode r = 200 ∧ tu_userId r = Some u
        ∧ (tu_isValidAndUnused r = Some true
           ↔ u ∈ validUserIds s ∧ u ∉ usedUserIds s)
        ∧ ∀ env e n p, e ≠ "" → n ≠ "" → p ≠ "" →
            (tu_isValidAndUnused r = Some true →
             sendLicense env (mkSendLicenseBody (Some e) (Some u) (Some n) (Some p)) s
             = tryCatch (issueLicense env e u n p) (ret resInternalError) s)
            ∧ (tu_isValidAndUnused r ≠ Some true →
               sendLicense env (mkSendLicenseBody (Some e) (Some u) (Some n) (Some p)) s
               = Done (jsonError 400 (tu_message r)) s []).
Proof.
  unfold testUserId. destruct (truthy userId) eqn:Ht; simpl.
  - apply truthy_Some in Ht as (u & -> & Nu).
    eexists. split; [reflexivity|]. split; [done|].
    intros u' [= <-] _. simpl. split_and!; [done..| |].
    + rewrite <-validate_valid_iff. split; [by intros [= ->]|by intros ->].
    + intros env e n p Ne Nn Np. rewrite sendLicense_fields by done.
      destruct (valid (validateUserIdDirectAndUnused s u)); simpl; split; done.
  - exists resUserIdRequired. split; [done|]. split; [done|].
    intros u -> Nu. simpl in Ht. rewrite bool_decide_eq_false_2 in Ht by done.
    done.
Qed.

Lemma testUserId_witness :
  ∃ r, testUserId (Some "U123") issuedServer = Done r issuedServer []
    ∧ sendLicense (quietEnv drawsMNOP) requestU123 issuedServer
      = Done (jsonError 400 (tu_message r)) issuedServer [].
Proof.
  destruct (testUserId_previews_sendLicense (Some "U123") issuedServer)
    as (r & Hrun & _ & Hsome).
  exists r. split; [exact Hrun|].
  destruct (Hsome "U123" eq_refl) as (_ & _ & Hiff & Hsend); [discriminate|].
  refine (proj2 (Hsend (quietEnv drawsMNOP) "a@b.com" "Asha" "5550100" _ _ _) _);
    try discriminate.
  intros Htrue. apply Hiff in Htrue as [_ Hnot]. apply Hnot. simpl.
  apply elem_of_singleton. reflexivity.
Defined.

(** ** Invariants of the collection *)

(** What one request changes: nothing; or it appends a new ASSIGNED license
    under a key that was absent and, at most, marks that request's id; or
    it activates one license that was not activated. *)
Lemma handle_change (env : Env) (req : Request) (s s' : Server)
    (res : Response) (log : list Op) :
  handle env req s = Done res s' log →
  s' = s
  ∨ (∃ e u n p key,
       lookupKey key (licenses s) = None
       ∧ licenses s' = licenses s ++ [newLicense e u n p key]
       ∧ (usedUserIds s' = usedUserIds s
          ∨ usedUserIds s' = {[ u ]} ∪ usedUserIds s)
       ∧ (usedIdsFile s' = usedIdsFile s ∨ usedIdsFile s' = usedUserIds s'))
  ∨ (∃ i l m t,
       licenses s !! i = Some l ∧ status l ≠ "ACTIVATED" ∧ m ≠ ""
       ∧ s' = setLicenses s (<[i := activated l m t]> (licenses s))).
Proof.
  destruct req as [body|body]; simpl; intros Hrun.
  - destruct (sendLicense_run _ _ _ _ _ _ Hrun)
      as [(-> & _)
         |(e & u & n & p & -> & _ & _ & _ & _ & _ & _
           & [(-> & _)|(key & finds & Habs & _ & _ & Heq)])];
      [by left..|].
    destruct (saveOutcome env), (emailConfigured env), (sendMailThrows env),
      (writeFileThrows env); simplify_eq; first [by left|right; left];
      exists e, u, n, p, key; simpl; split_and!; eauto.
  - destruct (activateLicense_inv _ _ _ _ _ _ Hrun)
      as [[-> _]|(e & k & m & i & l & _ & _ & _ & Nm & Hl & _ & Hs & _ & -> & _)];
      [by left|].
    apply lookupKey_Some in Hl as (Hi & _). right; right.
    exists i, l, m, (now env). done.
Qed.

Lemma steps_ind_inv (P : Server → Prop) :
  (∀ env req s s' res log, handle env req s = Done res s' log → P s → P s') →
  ∀ s s', steps s s' → P s → P s'.
Proof.
  intros Hstep s s'.
  induction 1 as [s|s1 s2 s3 (env & req & res & log & Hrun) _ IH]; [done|].
  intros H1. apply IH. by eapply Hstep.
Qed.

Lemma newLicense_wellFormed (e u n p key : string) :
  wellFormedLicense (newLicense e u n p key).
Proof. by left. Qed.

Lemma activated_wellFormed (l : License) (m : string) (t : Z) :
  m ≠ "" → wellFormedLicense (activated l m t).
Proof. intros Hm. right. simpl. eauto. Qed.

(** X5.  Every license is ASSIGNED with no machine and no activation
    time, or ACTIVATED with a non-empty machine id and an activation time:
    a collection of which this is true stays so under every request, so a
    license is bound to a machine exactly when it is ACTIVATED. *)
Theorem licenses_stay_well_formed (s s' : Server) :
  steps s s' →
  Forall wellFormedLicense (licenses s) →
  Forall wellFormedLicense (licenses s')
  ∧ ∀ l, l ∈ licenses s' →
      (is_Some (machineId l) ↔ status l = "ACTIVATED")
      ∧ (is_Some (activatedAt l) ↔ status l = "ACTIVATED").
Proof.
  intros Hsteps Hwf.
  assert (Forall wellFormedLicense (licenses s')) as Hwf'.
  { revert Hwf. apply (steps_ind_inv (λ s, Forall wellFormedLicense (licenses s)));
      [|done].
    clear. intros env req s s' res log Hrun Hwf.
    destruct (handle_change _ _ _ _ _ _ Hrun)
      as [->|[(e & u & n & p & key & _ & -> & _)
             |(i & l & m & t & Hi & _ & Nm & ->)]].
    - done.
    - apply Forall_app. split; [done|].
      apply Forall_singleton, newLicense_wellFormed.
    - simpl. apply Forall_insert; [done|]. by apply activated_wellFormed. }
  split; [done|]. intros l Hl.
  rewrite Forall_forall in Hwf'.
  destruct (Hwf' l Hl) as [(Hs & Hm & Ha)|(Hs & (m & Hm & _) & Ha)];
    rewrite Hs, ?Hm, ?Ha.
  - split; (split; [by intros [? ?]|discriminate]).
  - split; (split; [done|eauto]).
Qed.

Lemma licenses_well_formed_witness :
  Forall wellFormedLicense (licenses activatedServer).
Proof.
  apply (licenses_stay_well_formed issuedServer activatedServer
           steps_issued_activated).
  apply Forall_singleton, newLicense_wellFormed.
Defined.

(** X6.  No user id is marked as used without a license issued to it: if
    every used id has a license in the collection, this is still so after
    any requests. *)
Theorem used_ids_have_licenses (s s' : Server) :
  steps s s' →
  (∀ u, u ∈ usedUserIds s → ∃ l, l ∈ licenses s ∧ userId l = u) →
  ∀ u, u ∈ usedUserIds s' → ∃ l, l ∈ licenses s' ∧ userId l = u.
Proof.
  apply (steps_ind_inv
    (λ s, ∀ u, u ∈ usedUserIds s → ∃ l, l ∈ licenses s ∧ userId l = u)).
  clear. intros env req s s' res log Hrun Hinv u0 Hu0.
  destruct (handle_change _ _ _ _ _ _ Hrun)
    as [->|[(e & u & n & p & key & _ & Hl & Hused & _)
           |(i & l & m & t & Hi & _ & _ & ->)]].
  - by apply Hinv.
  - rewrite Hl. destruct Hused as [Hused|Hused]; rewrite Hused in Hu0.
    + destruct (Hinv _ Hu0) as (l & Hin & Hl'). exists l. set_solver.
    + apply elem_of_union in Hu0 as [->%elem_of_singleton|Hu0].
      * exists (newLicense e u n p key). set_solver.
      * destruct (Hinv _ Hu0) as (l & Hin & Hl'). exists l. set_solver.
  - simpl in *. destruct (Hinv _ Hu0) as (l0 & Hin & Hl0).
    apply list_elem_of_lookup in Hin as [j Hj].
    destruct (decide (j = i)) as [->|Hne].
    + exists (activated l m t). split.
      * apply list_elem_of_lookup. exists i.
        apply list_lookup_insert_eq. by eapply lookup_lt_Some.
      * simpl. congruence.
    + exists l0. split; [|done]. apply list_elem_of_lookup. exists j.
      by rewrite list_lookup_insert_ne.
Qed.

Lemma used_ids_have_licenses_witness :
  ∃ l, l ∈ licenses issuedServer ∧ userId l = "U123".
Proof.
  refine (used_ids_have_licenses freshServer issuedServer steps_fresh_issued
            _ "U123" _).
  - intros u Hu. simpl in Hu. by apply elem_of_empty in Hu.
  - simpl. apply elem_of_singleton. reflexivity.
Defined.

(** X7.  License keys stay unique: requests served one after the other
    never put two licenses with the same key into a collection that had
    none, because a key is inserted only after a lookup found it absent
    and activation does not touch keys. *)
Theorem license_keys_stay_unique (s s' : Server) :
  steps s s' →
  NoDup (licenseKey <$> licenses s) → NoDup (licenseKey <$> licenses s').
Proof.
  apply (steps_ind_inv (λ s, NoDup (licenseKey <$> licenses s))).
  clear. intros env req s s' res log Hrun Hnd.
  destruct (handle_change _ _ _ _ _ _ Hrun)
    as [->|[(e & u & n & p & key & Habs & -> & _)
           |(i & l & m & t & Hi & _ & _ & ->)]].
  - done.
  - rewrite fmap_app. apply NoDup_app. split_and!; [done| |apply NoDup_singleton].
    intros k (l & -> & Hl)%list_elem_of_fmap Hk. simpl in Hk.
    apply list_elem_of_singleton in Hk.
    unfold lookupKey in Habs. rewrite list_find_None, Forall_forall in Habs.
    by apply (Habs l Hl).
  - simpl. rewrite list_fmap_insert. simpl.
    rewrite list_insert_id; [done|]. by rewrite list_lookup_fmap, Hi.
Qed.

Lemma license_keys_unique_witness :
  NoDup (licenseKey <$> licenses activatedServer).
Proof.
  apply (license_keys_stay_unique freshServer activatedServer).
  - exact (steps_trans _ _ _ steps_fresh_issued steps_issued_activated).
  - apply NoDup_nil_2.
Defined.

(** ** Issuing and activating together *)





(** X10.  A license key is mailed only once it is saved, and only to the
    requester: in every run of [/send-license] at most one mail is sent,
    and when one is sent its recipient is the request's email address and
    its key is the key of a license of that request which is, from then on,
    in the collection. *)
Theorem mail_only_for_saved_license (env : Env) (body : SendLicenseBody)
    (s s' : Server) (r : Response) (log : list Op) :
  sendLicense env body s = Done r s' log →
  (∀ to key, OpSendMail to key ∈ log →
     sl_email body = Some to
     ∧ emailConfigured env = true
     ∧ ∃ doc, licenses s' = licenses s ++ [doc]
         ∧ licenseKey doc = key ∧ email doc = to
         ∧ Some (userId doc) = sl_userId body)
  ∧ ∀ to1 key1 to2 key2 i j,
      log !! i = Some (OpSendMail to1 key1) →
      log !! j = Some (OpSendMail to2 key2) → i = j.
Proof.
  intros Hrun.
  destruct (sendLicense_run _ _ _ _ _ _ Hrun)
    as [(_ & -> & _)
       |(e & u & n & p & -> & _ & _ & _ & _ & _ & _
         & [(_ & _ & Hlog)|(key & finds & _ & _ & Hfinds & Heq)])].
  - split; [intros to key Hin; by apply elem_of_nil in Hin|].
    intros ? ? ? ? i j Hi. done.
  - split.
    + intros to key Hin. destruct (Hlog _ Hin) as [? ?]. done.
    + intros ? ? ? ? i j Hi. apply list_elem_of_lookup_2 in Hi.
      destruct (Hlog _ Hi) as [? ?]. done.
  - assert (∀ i to c tail, (finds ++ tail) !! i = Some (OpSendMail to c) →
            length finds ≤ i ∧ tail !! (i - length finds) = Some (OpSendMail to c))
      as Hsplit.
    { intros i to c tail Hi. apply lookup_app_Some in Hi as [Hi|Hi]; [|done].
      apply list_elem_of_lookup_2 in Hi. destruct (Hfinds _ Hi) as [? ?]. done. }
    destruct (saveOutcome env), (emailConfigured env), (sendMailThrows env),
      (writeFileThrows env); simplify_eq; (split;
      [ intros to c [Hin|Hin]%elem_of_app;
        [destruct (Hfinds _ Hin) as [? ?]; done|];
        set_unfold in Hin;
        repeat match goal with
               | H : _ ∨ _ |- _ => destruct H as [H|H]
               end; simplify_eq; try done;
        (split_and!; [done..|]);
        eexists; split_and!; done
      | intros to1 c1 to2 c2 i j Hi Hj;
        destruct (Hsplit _ _ _ _ Hi) as [Hi1 Hi2];
        destruct (Hsplit _ _ _ _ Hj) as [Hj1 Hj2];
        destruct (i - length finds) as [|[|[|?]]] eqn:Ei;
        destruct (j - length finds) as [|[|[|?]]] eqn:Ej;
        simplify_eq/=; lia ]).
Qed.

Lemma mail_only_for_saved_witness :
  ∃ doc, licenses issuedServer = licenses freshServer ++ [doc]
    ∧ licenseKey doc = "ABCD-EFGH-IJKL" ∧ email doc = "a@b.com"
    ∧ Some (userId doc) = sl_userId requestU123.
Proof.
  refine (proj2 (proj2 (proj1
    (mail_only_for_saved_license _ _ _ _ _ _ run_issue_U123)
    "a@b.com" "ABCD-EFGH-IJKL" _))).
  apply elem_of_cons. right. apply elem_of_cons. right.
  apply elem_of_cons. by left.
Defined.

(** ** More on the format of a key *)

Lemma segment_length_exact (d : Js.Draw) :
  String.length (segment d) = 4 `min` length d.
Proof.
  destruct d as [|a [|b [|c [|x rest]]]];
    [reflexivity..|rewrite segment_long; reflexivity].
Qed.

Lemma string_length_list (s : string) :
  String.length s = length (String.list_ascii_of_string s).
Proof. induction s as [|c s IH]; simpl; [done|]. by rewrite IH. Qed.

Lemma matchesKeyFormat_length (s : string) :
  Js.matchesKeyFormat s = true → String.length s = 14.
Proof.
  rewrite string_length_list. unfold Js.matchesKeyFormat.
  destruct (String.list_ascii_of_string s)
    as [|? [|? [|? [|? [|? [|? [|? [|? [|? [|? [|? [|? [|? [|? [|? ?]]]]]]]]]]]]]]];
    done.
Qed.

(** X11.  How long a key is, and when it has the format
    [XXXX-XXXX-XXXX]: each segment has as many characters as its draw
    printed digits, up to four, so the key has between 2 and 14 characters;
    and for draws whose digits are base-36 digits the key matches
    [^[A-Z0-9]{4}-[A-Z0-9]{4}-[A-Z0-9]{4}$] exactly when each of the three
    draws printed at least four digits. *)
Theorem key_format_iff (d1 d2 d3 : Js.Draw) :
  String.length (candidateKey d1 d2 d3)
  = (4 `min` length d1) + (4 `min` length d2) + (4 `min` length d3) + 2
  ∧ (Js.wellFormed d1 → Js.wellFormed d2 → Js.wellFormed d3 →
     Js.matchesKeyFormat (candidateKey d1 d2 d3) = true
     ↔ 4 ≤ length d1 ∧ 4 ≤ length d2 ∧ 4 ≤ length d3).
Proof.
  assert (String.length (candidateKey d1 d2 d3)
          = (4 `min` length d1) + (4 `min` length d2) + (4 `min` length d3) + 2)
    as Hlen.
  { unfold candidateKey. rewrite !string_app_length, !segment_length_exact.
    simpl. lia. }
  split; [done|]. intros W1 W2 W3. split.
  - intros Hm%matchesKeyFormat_length. lia.
  - intros (L1 & L2 & L3). by apply candidateKey_format.
Qed.

Lemma key_format_witness :
  Js.matchesKeyFormat "ABCD-EFGH-IJKL" = true.
Proof.
  refine (proj2 (proj2 (key_format_iff [10; 11; 12; 13; 7]%N
                          [14; 15; 16; 17; 30; 2]%N [18; 19; 20; 21]%N) _ _ _) _).
  - repeat constructor.
  - repeat constructor.
  - repeat constructor.
  - simpl. lia.
Defined.

(** The digit a character of a segment stands for. *)
Lemma upper_digit_decode (d : N) :
  (d < 36)%N →
  (let n := N_of_ascii (Js.toUpperAscii (Js.digitChar d)) in
   if (n <? 58)%N then n - 48 else n - 55)%N = d.
Proof.
  intros Hd. destruct d as [|p]; [reflexivity|].
  do 6 (try destruct p as [p|p|]); try reflexivity; lia.
Qed.

Lemma upper_digit_inj (a b : N) :
  (a < 36)%N → (b < 36)%N →
  Js.toUpperAscii (Js.digitChar a) = Js.toUpperAscii (Js.digitChar b) → a = b.
Proof.
  intros Ha Hb Heq.
  rewrite <-(upper_digit_decode a Ha), <-(upper_digit_decode b Hb).
  simpl. by rewrite Heq.
Qed.

(** X12.  Two rounds of the generator build the same key exactly when
    their draws agree, draw by draw, on the first four digits printed (for
    draws that print at least four base-36 digits): nothing of a draw
    beyond its fourth digit reaches the key, and no two different
    four-digit prefixes are merged. *)
Theorem key_collision_iff (d1 d2 d3 e1 e2 e3 : Js.Draw) :
  Js.wellFormed d1 → Js.wellFormed d2 → Js.wellFormed d3 →
  Js.wellFormed e1 → Js.wellFormed e2 → Js.wellFormed e3 →
  4 ≤ length d1 → 4 ≤ length d2 → 4 ≤ length d3 →
  4 ≤ length e1 → 4 ≤ length e2 → 4 ≤ length e3 →
  candidateKey d1 d2 d3 = candidateKey e1 e2 e3
  ↔ take 4 d1 = take 4 e1 ∧ take 4 d2 = take 4 e2 ∧ take 4 d3 = take 4 e3.
Proof.
  intros Wd1 Wd2 Wd3 We1 We2 We3 Ld1 Ld2 Ld3 Le1 Le2 Le3.
  destruct d1 as [|a1 [|a2 [|a3 [|a4 r1]]]]; simpl in Ld1; try lia.
  destruct d2 as [|b1 [|b2 [|b3 [|b4 r2]]]]; simpl in Ld2; try lia.
  destruct d3 as [|c1 [|c2 [|c3 [|c4 r3]]]]; simpl in Ld3; try lia.
  destruct e1 as [|x1 [|x2 [|x3 [|x4 q1]]]]; simpl in Le1; try lia.
  destruct e2 as [|y1 [|y2 [|y3 [|y4 q2]]]]; simpl in Le2; try lia.
  destruct e3 as [|z1 [|z2 [|z3 [|z4 q3]]]]; simpl in Le3; try lia.
  unfold Js.wellFormed in *.
  repeat match goal with
         | H : Forall _ (_ :: _) |- _ => apply Forall_cons in H as [? H]
         end.
  unfold candidateKey. rewrite !segment_long. simpl take. split.
  - simpl. intros Heq. injection Heq. intros.
    repeat match goal with
           | H : Js.toUpperAscii _ = Js.toUpperAscii _ |- _ =>
               apply upper_digit_inj in H; [subst|done..]
           end.
    done.
  - intros ([= -> -> -> ->] & [= -> -> -> ->] & [= -> -> -> ->]). done.
Qed.

Lemma key_collision_witness :
  candidateKey [10; 11; 12; 13; 7]%N [14; 15; 16; 17; 30; 2]%N [18; 19; 20; 21]%N
  = candidateKey [10; 11; 12; 13]%N [14; 15; 16; 17; 0]%N [18; 19; 20; 21; 35]%N.
Proof.
  refine (proj2 (key_collision_iff _ _ _ _ _ _ _ _ _ _ _ _ _ _ _ _ _ _) _);
    first [ by repeat constructor | simpl; lia | done ].
Defined.

(** ** Starting and restarting the server *)

Lemma boot_validUserIds (writeThrows : bool) (usedFile validFile : IdsFile)
    (db : list License) :
  validUserIds (boot writeThrows usedFile validFile db)
  = list_to_set (readableIds validFile).
Proof.
  destruct validFile as [| | |v]; try done. simpl. by destruct (iterate v).
Qed.

Lemma boot_usedUserIds (writeThrows : bool) (usedFile validFile : IdsFile)
    (db : list License) :
  usedUserIds (boot writeThrows usedFile validFile db)
  = list_to_set (readableIds usedFile).
Proof.
  destruct usedFile as [| | |v]; try done. simpl. by destruct (iterate v).
Qed.

Lemma stringsOf_strings (ids : list string) : stringsOf (JStr <$> ids) = ids.
Proof.
  unfold stringsOf. induction ids as [|x ids IH]; [done|]. csimpl.
  by rewrite IH.
Qed.

Lemma restart_usedUserIds (writeThrows : bool) (validFile : IdsFile) (s : Server) :
  usedUserIds (restart writeThrows validFile s) = usedIdsFile s.
Proof.
  unfold restart. simpl. rewrite stringsOf_strings.
  apply list_to_set_elements_L.
Qed.

(** X13.  When the server starts, eligibility is decided by the two files
    alone: a user id is eligible exactly when it is among the strings that
    [new Set(JSON.parse(data))] takes from the allow-list file and not among
    those it takes from the used-ids file -- whatever licenses the database
    holds.  These strings are: of a JSON array, its elements that are
    strings; of a JSON string, its characters; and none when the file is
    missing, empty or not JSON, or holds [null], a boolean, a number or an
    object. *)
Theorem eligibility_after_boot (writeThrows : bool) (usedFile validFile : IdsFile)
    (db : list License) (u : string) :
  (valid (validateUserIdDirectAndUnused
            (boot writeThrows usedFile validFile db) u) = true
   ↔ u ∈ readableIds validFile ∧ u ∉ readableIds usedFile)
  ∧ (∀ items, readableIds (FileJson (JArr items)) = stringsOf items)
  ∧ (∀ ids, readableIds (FileIds ids) = ids)
  ∧ (∀ text, readableIds (FileJson (JStr text)) = characters text)
  ∧ readableIds FileMissing = [] ∧ readableIds FileEmpty = []
  ∧ readableIds FileCorrupt = [] ∧ readableIds (FileJson JNull) = []
  ∧ (∀ b, readableIds (FileJson (JBool b)) = [])
  ∧ (∀ n, readableIds (FileJson (JNum n)) = [])
  ∧ (∀ members, readableIds (FileJson (JObj members)) = []).
Proof.
  split_and!; try done.
  - rewrite validate_valid_iff, boot_validUserIds, boot_usedUserIds.
    by rewrite !elem_of_list_to_set.
  - intros ids. apply stringsOf_strings.
  - intros text. simpl. apply stringsOf_strings.
Qed.

Lemma eligibility_after_boot_witness :
  valid (validateUserIdDirectAndUnused
           (boot false (FileJson (JNum "7")) (FileJson (JStr "U1")) []) "U")
  = true.
Proof.
  apply (proj1 (eligibility_after_boot false (FileJson (JNum "7"))
                  (FileJson (JStr "U1")) [] "U")).
  split; [apply list_elem_of_here|apply not_elem_of_nil].
Defined.

(** X14.  Consumption survives a restart: after a SUCCESS answer of
    [/send-license] the user id is in the used-ids file, so when the process
    is stopped and started again -- whatever the allow-list file then holds
    -- the id is loaded as used, the license is still in the collection, and
    the id is refused from then on. *)
Theorem issuance_survives_restart (env : Env) (body : SendLicenseBody)
    (s s' : Server) (r : Response) (log : list Op) :
  sendLicense env body s = Done r s' log → resStatus r = "SUCCESS" →
  ∃ u, sl_userId body = Some u
    ∧ ∀ writeThrows validFile,
        u ∈ usedUserIds (restart writeThrows validFile s')
        ∧ licenses (restart writeThrows validFile s') = licenses s'
        ∧ ∀ s'', steps (restart writeThrows validFile s') s'' →
            valid (validateUserIdDirectAndUnused s'' u) = false.
Proof.
  intros Hrun Hok.
  destruct (sendLicense_issued _ _ _ _ _ _ Hrun Hok)
    as (e & u & n & p & key & -> & _ & _ & _ & _ & _ & -> & _).
  exists u. split; [done|]. intros wt vf.
  assert (u ∈ usedUserIds (restart wt vf
            (writeUsedIdsFile (addUsed (setLicenses s
               (licenses s ++ [newLicense e u n p key])) u)))) as Hu.
  { rewrite restart_usedUserIds. simpl. set_solver. }
  split_and!; [done..|]. intros s'' Hsteps.
  destruct (steps_ids _ _ Hsteps) as [_ Hsub].
  apply not_true_is_false. rewrite validate_valid_iff. set_solver.
Qed.

Lemma issuance_survives_restart_witness :
  "U123" ∈ usedUserIds (restart false (FileIds ["U123"; "U456"]) issuedServer).
Proof.
  destruct (issuance_survives_restart _ _ _ _ _ _ run_issue_U123 eq_refl)
    as (u & Hu & Hrestart).
  injection Hu as <-.
  exact (proj1 (Hrestart false (FileIds ["U123"; "U456"]))).
Defined.

(** X15.  The used-ids file never runs ahead of memory: if every id in the
    file is in the used set -- as it is when the server has just started --
    this stays so under any requests.  Hence a restart never marks an id
    that was not marked before it, and it keeps the collection. *)
Theorem used_ids_file_within_memory (s s' : Server) :
  steps s s' → usedIdsFile s ⊆ usedUserIds s →
  usedIdsFile s' ⊆ usedUserIds s'
  ∧ ∀ writeThrows validFile,
      usedUserIds (restart writeThrows validFile s') ⊆ usedUserIds s'
      ∧ licenses (restart writeThrows validFile s') = licenses s'.
Proof.
  intros Hsteps Hsub.
  assert (usedIdsFile s' ⊆ usedUserIds s') as Hsub'.
  { revert Hsub. apply (steps_ind_inv (λ s, usedIdsFile s ⊆ usedUserIds s));
      [|done].
    clear. intros env req s s' res log Hrun Hsub.
    destruct (handle_change _ _ _ _ _ _ Hrun)
      as [->|[(e & u & n & p & key & _ & _ & Hused & Hfile)
             |(i & l & m & t & _ & _ & _ & ->)]]; [done| |done].
    destruct Hfile as [Hfile|Hfile]; rewrite Hfile; [|done].
    destruct Hused as [Hused|Hused]; rewrite Hused; set_solver. }
  split; [done|]. intros wt vf. by rewrite restart_usedUserIds.
Qed.

Lemma used_ids_file_witness :
  usedUserIds (restart false (FileIds ["U123"]) issuedServer)
  ⊆ usedUserIds issuedServer.
Proof.
  refine (proj1 (proj2 (used_ids_file_within_memory freshServer issuedServer
                          steps_fresh_issued _) false (FileIds ["U123"]))).
  simpl. intros x Hx. exact Hx.
Defined.



(** * Requests that overlap *)

(** ** A handler that is not interrupted is the handler as a whole *)

(** [/activate-license] served alone is its two stretches, the lookup and
    the save, one after the other. *)
Lemma activateLicense_alone (env : Env) (body : ActivateBody) (s : Server) :
  activateLicense env body s
  = runAlone 2 (start env (ActivateLicense body) s) s [].
Proof.
  unfold activateLicense, start.
  destruct (_ || _); [done|].
  destruct (al_email body) as [e|], (al_licenseKey body) as [k|],
    (al_machineId body) as [m|]; try done.
  unfold tryCatch, activateStored, bind, findOne, saveAt, ret. simpl.
  destruct (findThrows env 0); simpl; [done|].
  destruct (lookupKey k (licenses s)) as [[i l]|]; simpl; [|done].
  destruct (bool_decide (email l = e)); simpl; [|done].
  destruct (bool_decide (status l = "ACTIVATED")); simpl.
  { by destruct (bool_decide (machineId l = Some m)). }
  by destruct (saveOutcome env).
Qed.

Lemma runAlone_answer (fuel : nat) (r : Response) (s : Server) (log : list Op) :
  runAlone fuel (Answer r) s log = Done r s log.
Proof. by destruct fuel. Qed.

(** After the save the handler goes on to its answer without waiting for
    anything that touches the state. *)
Lemma issueSaved_answers (env : Env) (e u n p key : string) (s : Server) :
  ∃ r s' log, advance (IssueSaved env e u n p key) s = (Answer r, s', log).
Proof.
  cbn [advance]. unfold markAndAnswer.
  destruct (emailConfigured env), (sendMailThrows env), (writeFileThrows env);
    simpl; eauto.
Qed.

Lemma runAlone_issueSave_fuel (fuel : nat) (env : Env) (e u n p key : string)
    (s : Server) (log : list Op) :
  runAlone (S (S fuel)) (Next (IssueSave env e u n p key)) s log
  = runAlone 2 (Next (IssueSave env e u n p key)) s log.
Proof.
  cbn [runAlone advance]. destruct (saveOutcome env); [|done..].
  destruct (issueSaved_answers env e u n p key
              (setLicenses s (licenses s ++ [newLicense e u n p key])))
    as (r & s' & log' & ->).
  by destruct fuel.
Qed.

(** The [try] block of [/send-license] from the save on. *)
Lemma issue_alone_from_save (env : Env) (e u n p : string) (s : Server) key finds :
  generateUniqueLicenseKey (findThrows env) 0 (random env) s = Done key s finds →
  tryCatch (issueLicense env e u n p) (ret resInternalError) s
  = runAlone 2 (Next (IssueSave env e u n p key)) s finds.
Proof.
  intros Hg. rewrite (issue_with_key _ _ _ _ _ _ _ _ Hg).
  cbn [runAlone advance]. destruct (saveOutcome env); [|done..].
  cbn [advance]. unfold markAndAnswer.
  destruct (emailConfigured env), (sendMailThrows env), (writeFileThrows env);
    simpl; by rewrite <-?(assoc_L (++)).
Qed.

(** The generator's loop, lookup by lookup. *)
Lemma issueFind_alone (env : Env) (e u n p : string) (s : Server) draws :
  ∀ k fuel log0, length draws + 2 ≤ fuel →
    runAlone fuel (Next (IssueFind env e u n p k draws)) s log0
    = match generateUniqueLicenseKey (findThrows env) k draws s with
      | Done key _ finds =>
          runAlone 2 (Next (IssueSave env e u n p key)) s (log0 ++ finds)
      | Thrown _ finds => Done resInternalError s (log0 ++ finds)
      | OutOfDraws => OutOfDraws
      end.
Proof.
  induction draws as [|d1|d1 d2|d1 d2 d3 rest IH] using draws_ind3;
    intros k fuel log0 Hfuel;
    (destruct fuel as [|fuel]; [simpl in Hfuel; lia|]);
    try (simpl; by destruct fuel).
  rewrite generate_round. simpl runAlone. cbn [advance].
  destruct (findThrows env k); [apply runAlone_answer|].
  destruct (lookupKey (candidateKey d1 d2 d3) (licenses s)) as [[i l]|] eqn:Hl.
  - rewrite bool_decide_eq_true_2 by eauto.
    rewrite IH by (simpl in Hfuel; lia).
    destruct (generateUniqueLicenseKey (findThrows env) (S k) rest s)
      as [key s2 finds|s2 finds|]; by rewrite <-?(assoc_L (++)).
  - rewrite bool_decide_eq_false_2 by (by intros [? ?]).
    destruct fuel as [|[|fuel]]; [simpl in Hfuel; lia..|].
    by rewrite runAlone_issueSave_fuel.
Qed.

(** [/send-license] served alone is its stretches one after the other. *)
Lemma sendLicense_alone (env : Env) (body : SendLicenseBody) (s : Server) :
  sendLicense env body s
  = runAlone (length (random env) + 3) (start env (SendLicense body) s) s [].
Proof.
  unfold sendLicense, start.
  destruct (_ || _); [by rewrite Nat.add_comm|].
  destruct (sl_email body) as [e|], (sl_userId body) as [u|],
    (sl_name body) as [n|], (sl_phoneNumber body) as [p|];
    try by rewrite Nat.add_comm.
  destruct (valid (validateUserIdDirectAndUnused s u)); simpl negb; cbv iota;
    [|by rewrite Nat.add_comm].
  rewrite issueFind_alone by lia. simpl app.
  destruct (generateUniqueLicenseKey (findThrows env) 0 (random env) s)
    as [key s1 finds|s1 finds|] eqn:Hg.
  - destruct (generate_Done _ _ _ _ _ _ _ Hg) as [-> _].
    by apply issue_alone_from_save.
  - by apply issue_find_throws with (s1 := s1).
  - by apply issue_out_of_draws.
Qed.

(** ** Requests served one after the other are one of the interleavings *)

Lemma isteps_trans (c1 c2 c3 : Config) : isteps c1 c2 → isteps c2 c3 → isteps c1 c3.
Proof.
  induction 1 as [c|ca cb cc Hstep _ IH]; [done|].
  intros H. eapply isteps_cons; [done|]. by apply IH.
Qed.

(** A waiting handler that is served to its answer without any other
    handler moving: the others wait as they did. *)
Lemma runAlone_isteps (fuel : nat) (t : Thread) (s : Server) (log : list Op)
    (pool : list Thread) (r : Response) (s' : Server) (log' : list Op) :
  runAlone fuel (Next t) s log = Done r s' log' →
  isteps (s, pool ++ [t]) (s', pool).
Proof.
  revert t s log. induction fuel as [|fuel IH]; intros t s log; [done|].
  cbn [runAlone]. destruct (advance t s) as [[o s1] log1] eqn:Hadv.
  destruct o as [t'|r0|].
  - intros Hrun. eapply isteps_cons; [|by eapply IH].
    by eapply (istep_next s pool t []).
  - rewrite runAlone_answer. intros [= <- <- <-].
    eapply isteps_cons; [|apply isteps_refl].
    rewrite <-(app_nil_r pool) at 2. by eapply (istep_answer s pool t []).
  - by destruct fuel.
Qed.

Lemma handle_isteps (env : Env) (req : Request) (s s' : Server) (r : Response)
    (log : list Op) (pool : list Thread) :
  handle env req s = Done r s' log → isteps (s, pool) (s', pool).
Proof.
  intros Hrun.
  assert (∃ fuel, runAlone fuel (start env req s) s [] = Done r s' log)
    as [fuel Halone].
  { destruct req as [body|body]; simpl in Hrun.
    - rewrite sendLicense_alone in Hrun. eauto.
    - rewrite activateLicense_alone in Hrun. eauto. }
  destruct (start env req s) as [t|r0|] eqn:Hstart.
  - eapply isteps_cons; [by eapply istep_start|]. by eapply runAlone_isteps.
  - rewrite runAlone_answer in Halone. injection Halone as <- <- <-.
    apply isteps_refl.
  - by destruct fuel.
Qed.

Lemma steps_isteps (s s' : Server) (pool : list Thread) :
  steps s s' → isteps (s, pool) (s', pool).
Proof.
  induction 1 as [s|s1 s2 s3 (env & req & res & log & Hrun) _ IH];
    [apply isteps_refl|].
  eapply isteps_trans; [by eapply handle_isteps|done].
Qed.

(** ** What every interleaving preserves *)

Lemma activated_activated (l : License) (m m' : string) (t t' : Z) :
  activated (activated l m t) m' t' = activated l m' t'.
Proof. done. Qed.

Lemma evolves_refl (s : Server) : evolves s s.
Proof. intros i l Hi. exists l. eauto. Qed.

Lemma evolves_trans (s1 s2 s3 : Server) :
  evolves s1 s2 → evolves s2 s3 → evolves s1 s3.
Proof.
  intros H12 H23 i l Hi.
  destruct (H12 i l Hi) as (l2 & Hi2 & Hl2).
  destruct (H23 i l2 Hi2) as (l3 & Hi3 & Hl3).
  exists l3. split; [done|].
  destruct Hl2 as [->|(m & t & Nm & ->)]; [done|].
  destruct Hl3 as [->|(m' & t' & Nm' & ->)]; [eauto|].
  rewrite activated_activated. eauto.
Qed.

Lemma threadOk_evolves (s s' : Server) (t : Thread) :
  evolves s s' → threadOk s t → threadOk s' t.
Proof.
  intros Hev. destruct t as [| | | |env i doc]; try done.
  intros (l & m & t & Hi & Nm & ->).
  destruct (Hev i l Hi) as (l' & Hi' & [->|(m' & t' & _ & ->)]).
  - exists l, m, t. done.
  - exists (activated l m' t'), m, t. by rewrite activated_activated.
Qed.

Lemma start_threadOk (env : Env) (req : Request) (s s' : Server) (t : Thread) :
  start env req s = Next t → threadOk s' t ∧ ∀ i, ¬ savesAt i t.
Proof.
  destruct req as [body|body]; simpl.
  - destruct (_ || _); [done|].
    destruct (sl_email body), (sl_userId body), (sl_name body),
      (sl_phoneNumber body); try done.
    destruct (negb _); [done|]. intros [= <-].
    split; [done|]. by intros i (? & ? & ?).
  - destruct (truthy (al_email body)); simpl; [|done].
    destruct (truthy (al_licenseKey body)); simpl; [|done].
    destruct (truthy (al_machineId body)) eqn:Tm; simpl; [|done].
    apply truthy_Some in Tm as (m & -> & Nm).
    destruct (al_email body), (al_licenseKey body); try done.
    intros [= <-]. split; [done|]. by intros i (? & ? & ?).
Qed.

(** What one stretch of a handler does to the state. *)
Lemma advance_change (t : Thread) (s s' : Server) (o : Outcome) (log : list Op) :
  advance t s = (o, s', log) → threadOk s t →
  validUserIds s' = validUserIds s ∧ usedUserIds s ⊆ usedUserIds s'
  ∧ (licenses s' = licenses s
     ∨ (∃ env e u n p key,
          t = IssueSave env e u n p key
          ∧ licenses s' = licenses s ++ [newLicense e u n p key])
     ∨ (∃ env i l m tm,
          t = ActSave env i (activated l m tm)
          ∧ licenses s !! i = Some l ∧ m ≠ ""
          ∧ licenses s' = <[i := activated l m tm]> (licenses s))).
Proof.
  destruct t as [env e u n p k draws|env e u n p key|env e u n p key
                |env e k m|env i doc]; cbn [advance].
  - destruct draws as [|d1 [|d2 [|d3 rest]]];
      repeat case_match; intros [= <- <- <-] _; split_and!; eauto.
  - destruct (saveOutcome env); intros [= <- <- <-] _; simpl;
      split_and!; eauto 10.
  - unfold markAndAnswer.
    destruct (emailConfigured env), (sendMailThrows env), (writeFileThrows env);
      simpl; intros [= <- <- <-] _; simpl; split_and!; eauto; set_solver.
  - repeat case_match; intros [= <- <- <-] _; split_and!; eauto.
  - intros Hadv (l & m & tm & Hi & Nm & ->).
    destruct (saveOutcome env); injection Hadv as <- <- <-; simpl;
      (split_and!; [done|done|]); [|by left..].
    right; right. exists env, i, l, m, tm. done.
Qed.

Lemma advance_evolves (t : Thread) (s s' : Server) (o : Outcome) (log : list Op) :
  advance t s = (o, s', log) → threadOk s t → evolves s s'.
Proof.
  intros Hadv Hok.
  destruct (advance_change _ _ _ _ _ Hadv Hok)
    as (_ & _ & [Hl|[(env & e & u & n & p & key & _ & Hl)
                    |(env & j & l0 & m & tm & _ & Hj & Nm & Hl)]]);
    intros i l Hi; rewrite Hl.
  - exists l. eauto.
  - exists l. split; [by apply lookup_app_l_Some|eauto].
  - destruct (decide (j = i)) as [->|Hne].
    + rewrite Hi in Hj. injection Hj as <-. exists (activated l m tm).
      split; [|eauto]. apply list_lookup_insert_eq. by eapply lookup_lt_Some.
    + exists l. split; [by rewrite list_lookup_insert_ne|eauto].
Qed.

(** The handler that goes on waits in a state of which [threadOk] holds,
    and it is about to save only what it has just read as not activated. *)
Lemma advance_next (t t' : Thread) (s s' : Server) (log : list Op) :
  advance t s = (Next t', s', log) → threadOk s t →
  threadOk s' t'
  ∧ ∀ i, savesAt i t' →
      s' = s ∧ ∃ l, licenses s !! i = Some l ∧ status l ≠ "ACTIVATED".
Proof.
  destruct t as [env e u n p k draws|env e u n p key|env e u n p key
                |env e k m|env i doc]; cbn [advance].
  - destruct draws as [|d1 [|d2 [|d3 rest]]];
      repeat case_match; intros [= <- <- <-] _; try done;
      (split; [done|]); by intros i (? & ? & ?).
  - destruct (saveOutcome env); intros [= <- <- <-] _.
    split; [done|]. by intros i (? & ? & ?).
  - unfold markAndAnswer.
    by destruct (emailConfigured env), (sendMailThrows env),
      (writeFileThrows env).
  - destruct (findThrows env 0); [done|].
    destruct (lookupKey k (licenses s)) as [[i l]|] eqn:Hl; [|done].
    destruct (negb _); [done|].
    destruct (decide (status l = "ACTIVATED")) as [Hs|Hs].
    { rewrite (bool_decide_eq_true_2 _ Hs). by case_match. }
    rewrite (bool_decide_eq_false_2 _ Hs). intros [= <- <- <-] Nm.
    apply lookupKey_Some in Hl as (Hi & _). simpl in Nm. split.
    + exists l, m, (now env). done.
    + intros j (env' & doc & [= _ <- _]). split; [done|]. eauto.
  - by destruct (saveOutcome env).
Qed.

Lemma istep_consistent (c c' : Config) :
  consistent c → istep c c' → consistent c' ∧ evolves c.1 c'.1.
Proof.
  intros Hc Hstep.
  destruct Hstep as [env req s pool t Hstart
                    |s pool1 t pool2 t' s' log Hadv
                    |s pool1 t pool2 r s' log Hadv]; unfold consistent in *;
    simpl in *.
  - split; [|apply evolves_refl]. apply Forall_app. split; [done|].
    apply Forall_singleton. by eapply start_threadOk.
  - apply Forall_app in Hc as [H1 [Ht H2]%Forall_cons].
    pose proof (advance_evolves _ _ _ _ _ Hadv Ht) as Hev.
    split; [|done]. apply Forall_app. split.
    + eapply Forall_impl; [done|]. intros x. by apply threadOk_evolves.
    + apply Forall_cons. split; [by eapply advance_next|].
      eapply Forall_impl; [done|]. intros x. by apply threadOk_evolves.
  - apply Forall_app in Hc as [H1 [Ht H2]%Forall_cons].
    pose proof (advance_evolves _ _ _ _ _ Hadv Ht) as Hev.
    split; [|done]. apply Forall_app.
    split; (eapply Forall_impl; [done|]); intros x; by apply threadOk_evolves.
Qed.

Lemma isteps_consistent (c c' : Config) :
  consistent c → isteps c c' → consistent c' ∧ evolves c.1 c'.1.
Proof.
  intros Hc Hsteps. induction Hsteps as [c|c1 c2 c3 Hstep _ IH].
  - split; [done|apply evolves_refl].
  - destruct (istep_consistent _ _ Hc Hstep) as [Hc2 He12].
    destruct (IH Hc2) as [Hc3 He23]. split; [done|].
    by eapply evolves_trans.
Qed.

(** An activated document that no waiting activation is about to save is
    not written by the next step, and still no waiting activation is about
    to save it. *)
Lemma istep_settled (c c' : Config) i l :
  consistent c → istep c c' →
  licenses c.1 !! i = Some l → status l = "ACTIVATED" →
  Forall (λ t, ¬ savesAt i t) c.2 →
  licenses c'.1 !! i = Some l ∧ Forall (λ t, ¬ savesAt i t) c'.2.
Proof.
  intros Hc Hstep Hi Hst Hno.
  assert (∀ t s s' o log, advance t s = (o, s', log) → threadOk s t →
            ¬ savesAt i t → licenses s !! i = Some l →
            licenses s' !! i = Some l) as Hkeep.
  { intros t s s' o log Hadv Hok Hns His.
    destruct (advance_change _ _ _ _ _ Hadv Hok)
      as (_ & _ & [Hl|[(env & e & u & n & p & key & _ & Hl)
                      |(env & j & l0 & m & tm & -> & Hj & Nm & Hl)]]);
      rewrite Hl; [done|by apply lookup_app_l_Some|].
    rewrite list_lookup_insert_ne; [done|].
    intros ->. apply Hns. by eexists _, _. }
  destruct Hstep as [env req s pool t Hstart
                    |s pool1 t pool2 t' s' log Hadv
                    |s pool1 t pool2 r s' log Hadv]; unfold consistent in *;
    simpl in *.
  - split; [done|]. apply Forall_app. split; [done|].
    apply Forall_singleton. by eapply (start_threadOk _ _ _ s).
  - apply Forall_app in Hc as [Hc1 [Ht Hc2]%Forall_cons].
    apply Forall_app in Hno as [Hn1 [Hnt Hn2]%Forall_cons].
    split; [by eapply Hkeep|]. apply Forall_app. split; [done|].
    apply Forall_cons. split; [|done]. intros Hsave.
    destruct (advance_next _ _ _ _ _ Hadv Ht) as [_ Hnew].
    destruct (Hnew i Hsave) as (_ & l0 & Hl0 & Hs0). congruence.
  - apply Forall_app in Hc as [Hc1 [Ht Hc2]%Forall_cons].
    apply Forall_app in Hno as [Hn1 [Hnt Hn2]%Forall_cons].
    split; [by eapply Hkeep|]. apply Forall_app. done.
Qed.

Lemma isteps_settled (c c' : Config) i l :
  consistent c → isteps c c' →
  licenses c.1 !! i = Some l → status l = "ACTIVATED" →
  Forall (λ t, ¬ savesAt i t) c.2 →
  licenses c'.1 !! i = Some l ∧ Forall (λ t, ¬ savesAt i t) c'.2.
Proof.
  intros Hc Hsteps. induction Hsteps as [c|c1 c2 c3 Hstep _ IH]; [done|].
  intros Hi Hst Hno.
  destruct (istep_settled _ _ _ _ Hc Hstep Hi Hst Hno) as [Hi2 Hno2].
  apply IH; [|done..]. by eapply istep_consistent.
Qed.

Lemma evolves_licenseKey (s s' : Server) i l l' :
  evolves s s' → licenses s !! i = Some l → licenses s' !! i = Some l' →
  snapshot l' = snapshot l.
Proof.
  intros Hev Hi Hi'. destruct (Hev i l Hi) as (l2 & Hi2 & Hl2).
  rewrite Hi' in Hi2. injection Hi2 as <-.
  by destruct Hl2 as [->|(m & t & _ & ->)].
Qed.

(** So a key that finds such a document finds it, at its position, in every
    later state. *)
Lemma isteps_lookupKey (c c' : Config) (k : string) i l :
  consistent c → isteps c c' →
  lookupKey k (licenses c.1) = Some (i, l) → status l = "ACTIVATED" →
  Forall (λ t, ¬ savesAt i t) c.2 →
  lookupKey k (licenses c'.1) = Some (i, l).
Proof.
  intros Hc Hsteps (Hi & Hk & Hleast)%lookupKey_Some Hst Hno.
  destruct (isteps_settled _ _ _ _ Hc Hsteps Hi Hst Hno) as [Hi' _].
  destruct (isteps_consistent _ _ Hc Hsteps) as [_ Hev].
  apply lookupKey_Some. split_and!; [done..|].
  intros j y Hj Hlt Hy.
  assert (j < length (licenses c.1)) as Hlen.
  { apply lookup_lt_Some in Hi. lia. }
  destruct (lookup_lt_is_Some_2 (licenses c.1) j Hlen) as [y0 Hy0].
  apply (Hleast j y0 Hy0 Hlt).
  pose proof (evolves_licenseKey _ _ _ _ _ Hev Hy0 Hj) as Hsnap.
  unfold snapshot in Hsnap. congruence.
Qed.

(** ** Two activations of one license that overlap *)

(** Both requests are started and both lookups are answered before either
    save; then the save for [mach-1] is performed. *)
Lemma overlap_first_saved :
  isteps (issuedServer, [])
    (activatedServer,
     [ActSave laterEnv 0 (activated licenseU123 "mach-2" 1700000000500)]).
Proof.
  eapply isteps_cons.
  { apply (istep_start (quietEnv []) (ActivateLicense (activateU123 "mach-1"))
             issuedServer []). reflexivity. }
  eapply isteps_cons.
  { apply (istep_start laterEnv (ActivateLicense (activateU123 "mach-2"))
             issuedServer). reflexivity. }
  eapply isteps_cons.
  { eapply (istep_next issuedServer [] _
             [ActFind laterEnv "a@b.com" "ABCD-EFGH-IJKL" "mach-2"]).
    reflexivity. }
  eapply isteps_cons.
  { eapply (istep_next issuedServer
             [ActSave (quietEnv []) 0
                (activated licenseU123 "mach-1" 1700000000000)] _ []).
    reflexivity. }
  eapply isteps_cons; [|apply isteps_refl].
  apply (istep_answer issuedServer [] _
           [ActSave laterEnv 0 (activated licenseU123 "mach-2" 1700000000500)]
           resActivated activatedServer
           [OpUpdate 0 (activated licenseU123 "mach-1" 1700000000000)]).
  reflexivity.
Qed.

(** Then the save for [mach-2]. *)
Lemma overlap_second_saved :
  isteps
    (activatedServer,
     [ActSave laterEnv 0 (activated licenseU123 "mach-2" 1700000000500)])
    (reboundServer, []).
Proof.
  eapply isteps_cons; [|apply isteps_refl].
  apply (istep_answer activatedServer [] _ [] resActivated reboundServer
           [OpUpdate 0 (activated licenseU123 "mach-2" 1700000000500)]).
  reflexivity.
Qed.

Lemma consistent_nil (s : Server) : consistent (s, []).
Proof. apply Forall_nil_2. Qed.

(** Every configuration that the server reaches from a state in which no
    handler waits is consistent. *)
Lemma reachable_consistent (s : Server) (c : Config) :
  isteps (s, []) c → consistent c.
Proof.
  intros Hsteps. by destruct (isteps_consistent _ _ (consistent_nil s) Hsteps).
Qed.

(** An activation from [mach-2] that arrived while the license of [U123]
    was being activated from [mach-1], and whose lookup is answered only
    after that activation has saved: it is refused. *)
Lemma late_lookup_refused :
  isteps
    (activatedServer, [ActFind laterEnv "a@b.com" "ABCD-EFGH-IJKL" "mach-2"])
    (activatedServer, []).
Proof.
  eapply isteps_cons; [|apply isteps_refl].
  eapply (istep_answer activatedServer [] _ []). reflexivity.
Qed.

Lemma late_lookup_waits (s : Server) :
  consistent (s, [ActFind laterEnv "a@b.com" "ABCD-EFGH-IJKL" "mach-2"])
  ∧ Forall (λ t, ¬ savesAt 0 t)
      [ActFind laterEnv "a@b.com" "ABCD-EFGH-IJKL" "mach-2"].
Proof.
  split; apply Forall_singleton; [discriminate|].
  intros (env & doc & Heq). discriminate.
Qed.

(** ** Activation: the claims, for requests that may overlap *)

(** C4 does not hold as stated: [activatedAt] is not set exactly once.
    An activation from [mach-2] whose lookup found the license of [U123]
    ASSIGNED, and whose save is performed after the activation from
    [mach-1] has saved, is answered VALID as well and sets [activatedAt] a
    second time. *)
Lemma activatedAt_set_twice :
  status licenseU123 = "ASSIGNED"
  ∧ advance (ActFind laterEnv "a@b.com" "ABCD-EFGH-IJKL" "mach-2") issuedServer
    = (Next (ActSave laterEnv 0 (activated licenseU123 "mach-2" 1700000000500)),
       issuedServer, [OpFindOne "ABCD-EFGH-IJKL"])
  ∧ isteps (issuedServer, [])
      (activatedServer,
       [ActSave laterEnv 0 (activated licenseU123 "mach-2" 1700000000500)])
  ∧ activatedAt <$> licenses activatedServer !! 0 = Some (Some 1700000000000%Z)
  ∧ advance (ActSave laterEnv 0 (activated licenseU123 "mach-2" 1700000000500))
      activatedServer
    = (Answer resActivated, reboundServer,
       [OpUpdate 0 (activated licenseU123 "mach-2" 1700000000500)])
  ∧ activatedAt <$> licenses reboundServer !! 0 = Some (Some 1700000000500%Z).
Proof. split_and!; first [reflexivity | apply overlap_first_saved]. Qed.

(** C4, amended.  On a license found in state ASSIGNED and owned by the
    email given, an activation whose database calls go through is answered
    with success (HTTP 200, status VALID), and what it saves is the document
    found with [status] ACTIVATED, [machineId] the machine given and
    [activatedAt] the time of the call; this is so when the request is
    served alone and, stretch by stretch, when other requests run between
    its lookup and its save.  Once the document is saved, no request writes
    it again -- so [activatedAt] stays as set -- provided no other
    activation is waiting to save that document at that moment. *)
Theorem activation_of_assigned (env : Env) (e k m : string) (s : Server) i l :
  e ≠ "" → k ≠ "" → m ≠ "" →
  findThrows env 0 = false → saveOutcome env = SaveOk →
  lookupKey k (licenses s) = Some (i, l) →
  email l = e → status l = "ASSIGNED" →
  activateLicense env (mkActivateBody (Some e) (Some k) (Some m)) s
  = Done resActivated
      (setLicenses s (<[i := activated l m (now env)]> (licenses s)))
      [OpFindOne k; OpUpdate i (activated l m (now env))]
  ∧ httpCode resActivated = 200 ∧ resStatus resActivated = "VALID"
  ∧ resMessage resActivated = "License activated successfully."
  ∧ status (activated l m (now env)) = "ACTIVATED"
  ∧ machineId (activated l m (now env)) = Some m
  ∧ activatedAt (activated l m (now env)) = Some (now env)
  ∧ start env (ActivateLicense (mkActivateBody (Some e) (Some k) (Some m))) s
    = Next (ActFind env e k m)
  ∧ advance (ActFind env e k m) s
    = (Next (ActSave env i (activated l m (now env))), s, [OpFindOne k])
  ∧ (∀ s1 l1, licenses s1 !! i = Some l1 →
       advance (ActSave env i (activated l m (now env))) s1
       = (Answer resActivated,
          setLicenses s1 (<[i := activated l m (now env)]> (licenses s1)),
          [OpUpdate i (activated l m (now env))])
       ∧ licenses (setLicenses s1 (<[i := activated l m (now env)]> (licenses s1)))
           !! i = Some (activated l m (now env)))
  ∧ (∀ c, licenses c.1 !! i = Some (activated l m (now env)) →
       consistent c → Forall (λ t, ¬ savesAt i t) c.2 →
       ∀ c', isteps c c' →
         licenses c'.1 !! i = Some (activated l m (now env))).
Proof.
  intros He Hk Hm Hf Hsave Hl Hem Hst.
  assert (status l ≠ "ACTIVATED") as Hna by (rewrite Hst; discriminate).
  split_and!; try done.
  - by apply activate_fresh.
  - simpl. by rewrite !bool_decide_eq_false_2 by done.
  - cbn [advance]. rewrite Hf, Hl.
    by rewrite (bool_decide_eq_true_2 _ Hem), (bool_decide_eq_false_2 _ Hna).
  - intros s1 l1 Hi1. cbn [advance]. rewrite Hsave. split; [done|].
    simpl. apply list_lookup_insert_eq. by eapply lookup_lt_Some.
  - intros c Hi Hc Hno c' Hsteps.
    by apply (isteps_settled c c' i _ Hc Hsteps Hi).
Qed.

Lemma activation_of_assigned_witness :
  activateLicense (quietEnv []) (activateU123 "mach-1") issuedServer
  = Done resActivated activatedServer
      [OpFindOne "ABCD-EFGH-IJKL";
       OpUpdate 0 (activated licenseU123 "mach-1" 1700000000000)]
  ∧ httpCode resActivated = 200 ∧ resStatus resActivated = "VALID"
  ∧ licenses activatedServer !! 0
    = Some (activated licenseU123 "mach-1" 1700000000000).
Proof.
  destruct (activation_of_assigned (quietEnv []) "a@b.com" "ABCD-EFGH-IJKL"
              "mach-1" issuedServer 0 licenseU123
              ltac:(discriminate) ltac:(discriminate) ltac:(discriminate)
              eq_refl eq_refl eq_refl eq_refl eq_refl)
    as (Hrun & Hcode & Hstatus & _ & _ & _ & _ & _ & _ & _ & Hkept).
  split_and!; [exact Hrun|exact Hcode|exact Hstatus|].
  (* an activation from mach-2 that arrived in the meantime is answered *)
  exact (Hkept (activatedServer, _) eq_refl
           (proj1 (late_lookup_waits activatedServer))
           (proj2 (late_lookup_waits activatedServer))
           (activatedServer, []) late_lookup_refused).
Defined.

(** C5 does not hold as stated: the handler decides on the copy of the
    license that its lookup returned and saves it without looking again.
    With the license of [U123] ACTIVATED and bound to [mach-1], the save of
    an activation from [mach-2] that had looked the license up before is
    answered VALID, not with the different-machine refusal, and binds the
    license to [mach-2]. *)
Lemma overlapping_activation_rebinds :
  isteps (issuedServer, [])
    (activatedServer,
     [ActSave laterEnv 0 (activated licenseU123 "mach-2" 1700000000500)])
  ∧ status <$> licenses activatedServer !! 0 = Some "ACTIVATED"
  ∧ machineId <$> licenses activatedServer !! 0 = Some (Some "mach-1")
  ∧ advance (ActSave laterEnv 0 (activated licenseU123 "mach-2" 1700000000500))
      activatedServer
    = (Answer resActivated, reboundServer,
       [OpUpdate 0 (activated licenseU123 "mach-2" 1700000000500)])
  ∧ machineId <$> licenses reboundServer !! 0 = Some (Some "mach-2").
Proof. split_and!; first [reflexivity | apply overlap_first_saved]. Qed.

(** C5, amended.  An activation whose lookup finds the license ACTIVATED
    and bound to another machine than the one given is answered with the
    different-machine refusal and writes nothing.  And once a license is
    ACTIVATED and no activation is waiting to save it, the license -- its
    [machineId] in particular -- stays as it is in every interleaving of
    the requests that follow, no handler is ever again about to save it,
    and every activation of it by its owner from another machine is
    refused. *)
Theorem machine_binding_final_when_settled (c : Config) i l (m : string) :
  consistent c →
  licenses c.1 !! i = Some l → status l = "ACTIVATED" → machineId l = Some m →
  Forall (λ t, ¬ savesAt i t) c.2 →
  (∀ s env e k m' j l0,
     findThrows env 0 = false → lookupKey k (licenses s) = Some (j, l0) →
     email l0 = e → status l0 = "ACTIVATED" → machineId l0 ≠ Some m' →
     advance (ActFind env e k m') s = (Answer resMachineMismatch, s, [OpFindOne k]))
  ∧ resStatus resMachineMismatch = "ERROR"
  ∧ resMessage resMachineMismatch
    = "This license key is already activated on a different machine."
  ∧ ∀ c', isteps c c' →
      licenses c'.1 !! i = Some l
      ∧ Forall (λ t, ¬ savesAt i t) c'.2
      ∧ ∀ env k m', k ≠ "" → m' ≠ "" → email l ≠ "" →
          findThrows env 0 = false →
          lookupKey k (licenses c.1) = Some (i, l) → m' ≠ m →
          start env
            (ActivateLicense (mkActivateBody (Some (email l)) (Some k) (Some m')))
            c'.1
          = Next (ActFind env (email l) k m')
          ∧ advance (ActFind env (email l) k m') c'.1
            = (Answer resMachineMismatch, c'.1, [OpFindOne k])
          ∧ activateLicense env
              (mkActivateBody (Some (email l)) (Some k) (Some m')) c'.1
            = Done resMachineMismatch c'.1 [OpFindOne k].
Proof.
  intros Hc Hi Hst Hm Hno.
  assert (∀ s env e k m' j l0,
     findThrows env 0 = false → lookupKey k (licenses s) = Some (j, l0) →
     email l0 = e → status l0 = "ACTIVATED" → machineId l0 ≠ Some m' →
     advance (ActFind env e k m') s
     = (Answer resMachineMismatch, s, [OpFindOne k])) as Hrefuse.
  { intros s env e k m' j l0 Hf Hl He Hs Hne. cbn [advance]. rewrite Hf, Hl.
    rewrite (bool_decide_eq_true_2 _ He), (bool_decide_eq_true_2 _ Hs).
    by rewrite (bool_decide_eq_false_2 _ Hne). }
  split_and!; [done..|]. intros c' Hsteps.
  destruct (isteps_settled _ _ _ _ Hc Hsteps Hi Hst Hno) as [Hi' Hno'].
  split_and!; [done..|]. intros env k m' Hk Hm' He Hf Hl Hne.
  pose proof (isteps_lookupKey _ _ _ _ _ Hc Hsteps Hl Hst Hno) as Hl'.
  assert (machineId l ≠ Some m') as Hne' by (rewrite Hm; congruence).
  split_and!.
  - simpl. by rewrite !bool_decide_eq_false_2 by done.
  - by eapply Hrefuse.
  - by eapply activate_machine_mismatch.
Qed.

Lemma machine_binding_settled_witness :
  machineId <$> licenses activatedServer !! 0 = Some (Some "mach-1")
  ∧ activateLicense laterEnv (activateU123 "mach-2") activatedServer
    = Done resMachineMismatch activatedServer [OpFindOne "ABCD-EFGH-IJKL"].
Proof.
  destruct (machine_binding_final_when_settled
              (activatedServer,
               [ActFind laterEnv "a@b.com" "ABCD-EFGH-IJKL" "mach-2"]) 0
              (activated licenseU123 "mach-1" 1700000000000) "mach-1"
              (proj1 (late_lookup_waits activatedServer)) eq_refl eq_refl
              eq_refl (proj2 (late_lookup_waits activatedServer)))
    as (_ & _ & _ & Hlater).
  destruct (Hlater (activatedServer, []) late_lookup_refused)
    as (Hl & _ & Hact).
  split; [exact (f_equal (fmap machineId) Hl)|].
  refine (proj2 (proj2 (Hact laterEnv "ABCD-EFGH-IJKL" "mach-2" _ _ _ _ _ _)));
    first [reflexivity | discriminate].
Defined.




(** ** What is recorded at issuance, under any interleaving *)

(** X8.  Under any interleaving of requests, what was recorded at issuance
    is never rewritten: the license at a given position keeps its email,
    user id, name, phone number and key, and it is either unchanged or the
    result of an activation of it with a non-empty machine id; a license
    that is ACTIVATED stays ACTIVATED. *)
Theorem license_fields_never_rewritten (c c' : Config) i l :
  consistent c → isteps c c' → licenses c.1 !! i = Some l →
  ∃ l', licenses c'.1 !! i = Some l'
    ∧ snapshot l' = snapshot l
    ∧ (l' = l ∨ ∃ m t, m ≠ "" ∧ l' = activated l m t)
    ∧ (status l = "ACTIVATED" → status l' = "ACTIVATED").
Proof.
  intros Hc Hsteps Hi.
  destruct (isteps_consistent _ _ Hc Hsteps) as [_ Hev].
  destruct (Hev i l Hi) as (l' & Hi' & Hl'). exists l'.
  split_and!; [done| |done|].
  - by destruct Hl' as [->|(m & t & _ & ->)].
  - by destruct Hl' as [->|(m & t & _ & ->)].
Qed.

Lemma license_fields_witness :
  ∃ l', licenses reboundServer !! 0 = Some l'
    ∧ snapshot l' = snapshot licenseU123
    ∧ (l' = licenseU123 ∨ ∃ m t, m ≠ "" ∧ l' = activated licenseU123 m t)
    ∧ (status licenseU123 = "ACTIVATED" → status l' = "ACTIVATED").
Proof.
  exact (license_fields_never_rewritten (issuedServer, []) (reboundServer, [])
           0 licenseU123 (consistent_nil _)
           (isteps_trans _ _ _ overlap_first_saved overlap_second_saved)
           eq_refl).
Defined.
